(** * Group-cooperative prefix scan (bulk/algorithm/scan.hpp)

    A shallow embedding of [bulk::inclusive_scan] and [bulk::exclusive_scan]
    and of the two device functions they are built from,
    [small_inplace_exclusive_scan_with_buffer] and [scan_with_buffer].

    Execution model.  The code is SPMD: every worker of the group runs the
    same function body, and [g.wait()] is a barrier of the whole group.  A
    stretch of code between two consecutive barriers is a _phase_; a phase is
    run here for the workers in index order ([each_worker]), each worker
    reading and writing the shared arrays through [load] and [store].
    Variables that depend on the worker index ([tid], [x], [local_inputs],
    [local_offset], [local_size]) are kept once per worker; variables that
    every worker computes by the same expression from the same shared state
    ([first], [last], [result], [partition_size], [carry_in], [ping], [pong],
    [offset]) are kept once for the group.

    Data.  [size_type] is [int]: values stored in a [size_type] variable go
    through [to_int] (two's complement, 32 bits).  Arrays are lists, a pointer
    into an array is an integer offset, and an access outside the array is a
    fault ([None]).  The scratch buffer arrives with arbitrary contents; an
    uninitialised local is [None] and reading it is a fault.

    Element types.  [scan_with_buffer] works on two element types:
    [input_type], the value type of the source range, in which a worker keeps
    its [local_inputs] and its accumulator [x]; and [intermediate_type], in
    which the buffer keeps [sums] and [results] and in which the initial
    value, the carry and the output are.  Every assignment between the two
    converts, and the conversions are parameters of the embedding.  The
    small scan works on one type.  The destination is kept at
    [intermediate_type], the type of the [results] that the last copy of a
    pass assigns to it.  The source range is a list of its own,
    which the scan reads and does not write: source and destination do not
    overlap. *)

From stdpp Require Import base option list.
From Stdlib Require Import ZArith Lia.

(** ** Machine integers *)

(** Conversion to a 32-bit [int]. *)
Definition to_int (z : Z) : Z := ((z + 2147483648) `mod` 4294967296 - 2147483648)%Z.

(** Conversion to a 32-bit [unsigned int]. *)
Definition to_uint (z : Z) : Z := (z `mod` 4294967296)%Z.

(** ** Arrays *)

(** [p[i]] as an rvalue, [p] being the start of the array [m]. *)
Definition load {A : Type} (m : list A) (i : Z) : option A :=
  if (0 <=? i)%Z then m !! Z.to_nat i else None.

(** [p[i] = v]. *)
Definition store {A : Type} (m : list A) (i : Z) (v : A) : option (list A) :=
  if ((0 <=? i)%Z && (i <? Z.of_nat (length m))%Z)%bool
  then Some (<[Z.to_nat i := v]> m) else None.

(** ** Phases *)

(** One phase: the workers [index], [index+1], ... run [body] in turn on the
    shared state [s]; worker [k] starts from its private state [ps !! k] and
    leaves a new one. *)
Fixpoint each_worker {St P Q : Type} (body : nat → St → P → option (St * Q))
    (index : nat) (s : St) (ps : list P) : option (St * list Q) :=
  match ps with
  | [] => Some (s, [])
  | p :: ps' =>
      '(s1, q) ← body index s p;
      '(s2, qs) ← each_worker body (S index) s1 ps';
      Some (s2, q :: qs)
  end.

(** The same phase with the workers taking their turns in the order [order]:
    worker [i] starts from [ps !! i] and leaves its new private state in
    slot [i] of [qs]. *)
Fixpoint each_worker_in {St P Q : Type} (body : nat → St → P → option (St * Q))
    (order : list nat) (s : St) (ps : list P) (qs : list (option Q))
    : option (St * list (option Q)) :=
  match order with
  | [] => Some (s, qs)
  | i :: order' =>
      p ← ps !! i;
      '(s1, q) ← body i s p;
      each_worker_in body order' s1 ps (<[i:=Some q]> qs)
  end.

(** [for(size_type i = 0; i < n; ++i) body], counting from [i]: the [n]
    passes that the loop makes when [n] is within [int]. *)
Fixpoint for_range {St : Type} (i n : nat) (body : Z → St → option St) (s : St)
    : option St :=
  match n with
  | O => Some s
  | S n' => s' ← body (to_int (Z.of_nat i)) s; for_range (S i) n' body s'
  end.


(** Modelled from the spec: [bulk::copy_n(g, first, n, result)], which is
    defined in a header that is not embedded here.  A collective copy in which
    the workers jointly move [n] elements from the source range to the
    destination range; it ends in a barrier.  Nothing is moved when [n <= 0].
    An element is read as a value of the element type of the source range
    and assigned to the destination range: [via] does both, and fails where
    the source does not hold a value of that type. *)
Fixpoint copy_loop {A B : Type} (via : A → option B) (k : nat)
    (src : list A) (s : Z) (dst : list B) (d : Z) : option (list B) :=
  match k with
  | O => Some dst
  | S k' =>
      v ← load src s ≫= via;
      dst' ← store dst d v;
      copy_loop via k' src (s + 1) dst' (d + 1)
  end.

Definition copy_n {A B : Type} (via : A → option B)
    (src : list A) (s : Z) (n : Z) (dst : list B) (d : Z) : option (list B) :=
  copy_loop via (Z.to_nat n) src s dst d.

Section small_scan_code.

Context {T : Type}.
Variable binary_op : T → T → T.

(** ** small_inplace_exclusive_scan_with_buffer *)

(** Lines 46-53: worker 0 folds [init] into [first[0]]; every worker loads
    its [x]. *)
Definition small_scan_seed (first : Z) (init : T)
    (index : nat) (m : list T) (_ : unit) : option (list T * T) :=
  let tid := to_int (Z.of_nat index) in
  m1 ← (if (tid =? 0)%Z
        then v ← load m (first + 0); store m (first + 0) (binary_op init v)
        else Some m);
  x ← load m1 (first + tid);
  Some (m1, x).

(** Lines 59-66: one round of the loop.  [ping] and [pong] are the pointers
    before [thrust::swap], so the store goes to [pong]. *)
Definition small_scan_round (offset ping pong : Z)
    (index : nat) (m : list T) (x : T) : option (list T * T) :=
  let tid := to_int (Z.of_nat index) in
  x' ← (if (offset <=? tid)%Z
        then y ← load m (ping + to_int (tid - offset)); Some (binary_op y x)
        else Some x);
  m' ← store m (pong + tid) x';
  Some (m', x').

(** Lines 57-69: [for(offset = 1; offset < size; offset += offset)].  The
    comparison is done in [unsigned int].  [fuel] bounds the number of rounds. *)
Fixpoint small_scan_loop (fuel : nat) (size : Z) (offset ping pong : Z)
    (m : list T) (xs : list T) : option (Z * list T * list T) :=
  if (to_uint offset <? size)%Z then
    match fuel with
    | O => None
    | S fuel' =>
        '(m', xs') ← each_worker (small_scan_round offset ping pong) 0 m xs;
        small_scan_loop fuel' size (to_int (offset + offset)) pong ping m' xs'
    end
  else Some (ping, m, xs).

(** Line 73: [x = (tid == 0) ? init : ping[tid - 1]]. *)
Definition small_scan_shift (ping : Z) (init : T)
    (index : nat) (m : list T) (_ : T) : option (list T * T) :=
  let tid := to_int (Z.of_nat index) in
  x ← (if (tid =? 0)%Z then Some init else load m (ping + to_int (tid - 1)));
  Some (m, x).

(** Line 77: [first[tid] = x]. *)
Definition small_scan_writeback (first : Z)
    (index : nat) (m : list T) (x : T) : option (list T * unit) :=
  let tid := to_int (Z.of_nat index) in
  m' ← store m (first + tid) x;
  Some (m', ()).

(** The function: [size] is the template argument, [g] the number of workers
    of the group, [first] and [buffer] point into the array [m].  Returns the
    array and the value of [result].  The loop is given [size] rounds: a run
    that ends takes at most [log2 size + 1] of them, and no more than 32,
    after which [offset] has wrapped to 0 and the loop cannot end. *)
Definition small_inplace_exclusive_scan_with_buffer (size : Z) (g : nat)
    (m : list T) (first : Z) (init : T) (buffer : Z) : option (list T * T) :=
  '(m0, xs0) ← each_worker (small_scan_seed first init) 0 m (replicate g ());
  '(ping, m1, xs1) ← small_scan_loop (Z.to_nat size) size 1 first buffer m0 xs0;
  result ← load m1 (ping + to_uint (size - 1));
  '(m2, xs2) ← each_worker (small_scan_shift ping init) 0 m1 xs1;
  '(m3, _) ← each_worker (small_scan_writeback first) 0 m2 xs2;
  Some (m3, result).

End small_scan_code.

(** ** scan_with_buffer *)

(** [I] is [input_type], the value type of [RandomAccessIterator1]; [M] is
    [intermediate_type], the type of [sums] and [results].  The initial
    value and [carry_in] have the template argument [T] as their type, which
    the call of the small scan on [buffer.sums] (line 180) ties to
    [intermediate_type].  An instantiation of the templates fixes the two
    types, what a call of [binary_op] does at each of them, and the
    conversions between them. *)
Record instantiation (I M : Type) := {
  (** [binary_op] on two values of [intermediate_type], as the small scan
      calls it. *)
  binary_op : M → M → M;
  (** [x = i ? binary_op(x, local_inputs[i]) : local_inputs[i]] for [i != 0]
      (line 168): [binary_op] on two values of [input_type], its result
      brought to the type of the conditional expression and converted to
      [input_type] by the assignment to [input_type x]. *)
  conditional_op_x : I → I → I;
  (** The same statement for [i = 0]: [local_inputs[i]] brought to the type
      of the conditional expression, and converted to [input_type] by the
      assignment. *)
  conditional_x : I → I;
  (** [x = binary_op(x, local_inputs[i])] (lines 196 and 203): [binary_op]
      on two values of [input_type], its result converted to [input_type]
      by the assignment to [input_type x]. *)
  binary_op_x : I → I → I;
  (** The conversion of [buffer.sums[tid] = x] (line 174) and of
      [stage.results[index] = x] (line 199). *)
  to_intermediate : I → M;
  (** The conversion of [x = buffer.sums[tid]] (line 184). *)
  to_input : M → I
}.

Arguments binary_op {I M} _ _ _.
Arguments conditional_op_x {I M} _ _ _.
Arguments binary_op_x {I M} _ _ _.
Arguments conditional_x {I M} _ _.
Arguments to_intermediate {I M} _ _.
Arguments to_input {I M} _ _.

Section scan_with_buffer_code.

Context {I M : Type}.
Variable F : instantiation I M.

(** The template arguments of [static_execution_group<groupsize,grainsize>]. *)
Variables groupsize grainsize : nat.

(** [scan_buffer]: [sums[2*groupsize]] and the union of [inputs] and
    [results], one region of [groupsize * grainsize] slots with two views.
    A slot holds what was last assigned to it: [inl v] through
    [stage.inputs], [inr v] through [stage.results]. *)
Record scan_buffer := { sums : list M; stage : list (I + M) }.

(** [stage.inputs[i]] and [stage.results[i]] as rvalues: a slot is read
    through the view it was written through. *)
Definition as_input (c : I + M) : option I :=
  match c with inl v => Some v | inr _ => None end.

Definition as_result (c : I + M) : option M :=
  match c with inr v => Some v | inl _ => None end.

(** What a worker keeps in registers through one pass of the tile loop. *)
Record worker_locals := {
  local_offset : Z;
  local_size : Z;
  local_x : option I;
  local_inputs : list (option I)
}.

(** Lines 162-170, the body of the fused copy and accumulate loop; the state
    is [(x, local_inputs)]. *)
Definition accumulate_step (inputs : list (I + M)) (partition_size local_offset : Z)
    (i : Z) (s : option I * list (option I)) : option (option I * list (option I)) :=
  let '(x, local_inputs) := s in
  let index := to_int (local_offset + i) in
  if (index <? partition_size)%Z then
    v ← load inputs index ≫= as_input;
    local_inputs' ← store local_inputs i (Some v);
    x' ← (if (i =? 0)%Z then Some (conditional_x F v)
          else xv ← x; Some (conditional_op_x F xv v));
    Some (Some x', local_inputs')
  else Some s.

(** Lines 151-175: a worker reads its slice, folds it and publishes the fold
    in [sums[tid]] when the slice is not empty. *)
Definition accumulate (partition_size : Z)
    (index : nat) (b : scan_buffer) (_ : unit) : option (scan_buffer * worker_locals) :=
  let tid := to_int (Z.of_nat index) in
  let local_offset := to_int (Z.of_nat grainsize * tid) in
  let local_size :=
    Z.max 0 (Z.min (to_int (Z.of_nat grainsize))
                   (to_int (partition_size - Z.of_nat grainsize * tid))) in
  '(x, local_inputs) ← for_range 0 grainsize
      (accumulate_step (stage b) partition_size local_offset)
      (None, replicate grainsize None);
  sums' ← (if (local_size =? 0)%Z then Some (sums b)
           else xv ← x; store (sums b) tid (to_intermediate F xv));
  Some ({| sums := sums'; stage := stage b |},
        {| local_offset := local_offset; local_size := local_size;
           local_x := x; local_inputs := local_inputs |}).

(** Lines 191-205, the body of the scan loop; the state is [(x, results)]. *)
Definition local_scan_step (inclusive : bool) (local_inputs : list (option I))
    (partition_size local_offset : Z)
    (i : Z) (s : option I * list (I + M)) : option (option I * list (I + M)) :=
  let '(x, results) := s in
  let index := to_int (local_offset + i) in
  if (index <? partition_size)%Z then
    x1 ← (if inclusive
          then xv ← x; v ← mjoin (load local_inputs i);
               Some (Some (binary_op_x F xv v))
          else Some x);
    xv1 ← x1;
    results' ← store results index (inr (to_intermediate F xv1));
    x2 ← (if negb inclusive
          then v ← mjoin (load local_inputs i);
               Some (Some (binary_op_x F xv1 v))
          else Some x1);
    Some (x2, results')
  else Some s.

(** Lines 182-206: a worker with a non-empty slice fetches its exclusive
    prefix from [sums[tid]] into [x] and scans its slice into [results]. *)
Definition local_scan (inclusive : bool) (partition_size : Z)
    (index : nat) (b : scan_buffer) (l : worker_locals) : option (scan_buffer * unit) :=
  let tid := to_int (Z.of_nat index) in
  x ← (if (local_size l =? 0)%Z then Some (local_x l)
       else v ← load (sums b) tid; Some (Some (to_input F v)));
  '(_, results) ← for_range 0 grainsize
      (local_scan_step inclusive (local_inputs l) partition_size (local_offset l))
      (x, stage b);
  Some ({| sums := sums b; stage := results |}, ()).

(** The variables of the tile loop: [first] counts from the start of the
    source range, [result] is an offset into the destination array [dest]. *)
Record loop_state := {
  first : Z;
  result : Z;
  carry_in : M;
  buffer : scan_buffer;
  dest : list M
}.

(** Lines 145-210 and the increment of line 143: one pass of the tile loop
    over the source range [src], where [last] is its length. *)
Definition tile (inclusive : bool) (src : list I) (last : Z) (st : loop_state)
    : option loop_state :=
  let elements_per_group := to_int (Z.of_nat groupsize * Z.of_nat grainsize) in
  let partition_size := Z.min elements_per_group (to_int (last - first st)) in
  inputs ← copy_n (λ v, Some (inl v)) src (first st) partition_size
              (stage (buffer st)) 0;
  '(b1, ls) ← each_worker (accumulate partition_size) 0
      {| sums := sums (buffer st); stage := inputs |} (replicate groupsize ());
  '(sums2, total) ← small_inplace_exclusive_scan_with_buffer (binary_op F)
      (Z.of_nat groupsize) groupsize (sums b1) 0 (carry_in st) (Z.of_nat groupsize);
  '(b3, _) ← each_worker (local_scan inclusive partition_size) 0
      {| sums := sums2; stage := stage b1 |} ls;
  dest' ← copy_n as_result (stage b3) 0 partition_size (dest st) (result st);
  Some {| first := first st + elements_per_group;
          result := result st + elements_per_group;
          carry_in := total;
          buffer := b3;
          dest := dest' |}.

(** Line 143: [for(; first < last; ...)].  [fuel] bounds the number of passes. *)
Fixpoint tile_loop (fuel : nat) (inclusive : bool) (src : list I) (last : Z)
    (st : loop_state) : option loop_state :=
  if (first st <? last)%Z then
    match fuel with
    | O => None
    | S fuel' => st' ← tile inclusive src last st; tile_loop fuel' inclusive src last st'
    end
  else Some st.

(** The first [k] passes of the tile loop: the state in which pass [k]
    starts, if the loop gets that far. *)
Fixpoint tile_passes (k : nat) (inclusive : bool) (src : list I) (last : Z)
    (st : loop_state) : option loop_state :=
  match k with
  | O => Some st
  | S k' =>
      if (first st <? last)%Z
      then st' ← tile inclusive src last st; tile_passes k' inclusive src last st'
      else None
  end.

(** The function, on the source range [src] and the destination array [dst]
    at offset [result].  A pass that does not advance [first] repeats for
    ever; one that does needs at most [length src] passes, which is the fuel. *)
Definition scan_with_buffer (inclusive : bool) (src : list I)
    (dst : list M) (result : Z) (carry_in : M) (buffer : scan_buffer)
    : option loop_state :=
  tile_loop (length src) inclusive src (Z.of_nat (length src))
    {| first := 0; result := result; carry_in := carry_in;
       buffer := buffer; dest := dst |}.

(** ** The entry points *)

(** Modelled from the spec: [bulk::malloc(g, sizeof(buffer_type))] with
    [bulk::detail::is_shared], which are defined in a header that is not
    embedded here: a usable block with arbitrary contents, tagged as placed
    in fast on-chip memory or in the fallback pool. *)
Record allocation := { is_shared : bool; block : scan_buffer }.

(** Modelled from the spec: [bulk::detail::on_chip_cast], which changes the
    address space of the pointer and not the storage it points to. *)
Definition on_chip_cast (b : scan_buffer) : scan_buffer := b.

(** [inclusive_scan(g, first, last, result, init, binary_op)].  [cuda_arch] is
    the value of [__CUDA_ARCH__]; [a] is what [bulk::malloc] returns, or the
    static [__shared__] buffer when [__CUDA_ARCH__ < 200]. *)
Definition inclusive_scan (cuda_arch : nat) (a : allocation) (src : list I)
    (dst : list M) (result : Z) (init : M) : option (list M) :=
  dest <$>
    (if 200 <=? cuda_arch then
       if is_shared a
       then scan_with_buffer true src dst result init (on_chip_cast (block a))
       else scan_with_buffer true src dst result init (block a)
     else scan_with_buffer true src dst result init (on_chip_cast (block a))).

(** [exclusive_scan(g, first, last, result, init, binary_op)]. *)
Definition exclusive_scan (cuda_arch : nat) (a : allocation) (src : list I)
    (dst : list M) (result : Z) (init : M) : option (list M) :=
  dest <$>
    (if 200 <=? cuda_arch then
       if is_shared a
       then scan_with_buffer false src dst result init (on_chip_cast (block a))
       else scan_with_buffer false src dst result init (block a)
     else scan_with_buffer false src dst result init (block a)).

End scan_with_buffer_code.

Arguments scan_buffer I M : clear implicits.
Arguments worker_locals I : clear implicits.
Arguments loop_state I M : clear implicits.
Arguments allocation I M : clear implicits.

(** The instantiation at one element type [T]: no assignment converts, and
    [binary_op] is the same function wherever it is called. *)
Definition same_type {T : Type} (f : T → T → T) : instantiation T T :=
  {| binary_op := f; conditional_op_x := f; conditional_x := id;
     binary_op_x := f; to_intermediate := id; to_input := id |}.

(** [unsigned char] elements scanned with [thrust::plus<int>]:
    [intermediate_type] is [int], and what is assigned to [x] is reduced
    modulo 256.  Values of both types are integers here. *)
Definition bytes_under_int_plus : instantiation Z Z :=
  {| binary_op := Z.add;
     conditional_op_x := λ a b, ((a + b) `mod` 256)%Z;
     conditional_x := id;
     binary_op_x := λ a b, ((a + b) `mod` 256)%Z;
     to_intermediate := id;
     to_input := λ m, (m `mod` 256)%Z |}.

(** Integers scanned with [thrust::logical_or<bool>]: [intermediate_type] is
    [bool], an integer converts to [true] when it is not zero, and what is
    assigned to [x] is the integer 0 or 1 of a truth value. *)
Definition integers_under_logical_or : instantiation Z bool :=
  {| binary_op := orb;
     conditional_op_x :=
       λ a b, if negb (a =? 0)%Z || negb (b =? 0)%Z then 1%Z else 0%Z;
     conditional_x := λ a, if negb (a =? 0)%Z then 1%Z else 0%Z;
     binary_op_x := λ a b, if negb (a =? 0)%Z || negb (b =? 0)%Z then 1%Z else 0%Z;
     to_intermediate := λ a, negb (a =? 0)%Z;
     to_input := λ m : bool, if m then 1%Z else 0%Z |}.

(** Lines 270-273: [if(index == 0) *result = init]. *)
Definition write_first {T : Type} (result : Z) (init : T)
    (index : nat) (dst : list T) (_ : unit) : option (list T * unit) :=
  dst' ← (if (Z.of_nat index =? 0)%Z then store dst result init else Some dst);
  Some (dst', ()).

(** [inclusive_scan(this_group, first, last, result, binary_op)]: returns the
    destination array and the end of the destination range.  The initial
    value of the call of line 275 is of [input_type], and [scan_with_buffer]
    passes it to the small scan together with [buffer.sums]: the overload
    instantiates the scan at [input_type = intermediate_type]. *)
Definition inclusive_scan_seedless {T : Type} (f : T → T → T)
    (groupsize grainsize cuda_arch : nat) (a : allocation T T) (src : list T)
    (dst : list T) (result : Z) : option (list T * Z) :=
  match src with
  | init :: rest =>
      '(dst1, _) ← each_worker (write_first result init) 0 dst (replicate groupsize ());
      dst2 ← inclusive_scan (same_type f) groupsize grainsize cuda_arch a
                rest dst1 (result + 1) init;
      Some (dst2, (result + Z.of_nat (length src))%Z)
  | [] => Some (dst, (result + Z.of_nat (length src))%Z)
  end.

(** ** The sequential reference *)

Section reference.

Context {T : Type}.
Variable binary_op : T → T → T.

(** [fold(binary_op, l)] of a non-empty range, from left to right; the fold
    of the empty range is not defined. *)
Definition fold (l : list T) : option T :=
  match l with
  | [] => None
  | a :: l' => Some (fold_left binary_op l' a)
  end.


(** The fold of [v[lo..=hi]], with [d] in the place of elements that do not
    exist. *)
Definition segment (d : T) (v : list T) (lo hi : nat) : T :=
  fold_left binary_op (take (hi - lo) (drop (S lo) v)) (default d (v !! lo)).

(** The window of [k] elements that ends at [i], cut at the start of [v]. *)
Definition window (d : T) (v : list T) (k i : nat) : T :=
  segment d v (S i - min (S i) k) i.

(** The slice of worker [t] in the tile [tl]. *)
Definition chunk (grainsize : nat) (tl : list T) (t : nat) : list T :=
  take grainsize (drop (grainsize * t) tl).

(** The value of output position [j] of a scan seeded with [c]. *)
Definition prefix (inclusive : bool) (c : T) (l : list T) (j : nat) : T :=
  fold_left binary_op (take (if inclusive then S j else j) l) c.

(** The small scan at the head of its loop, when the windows have [k]
    elements: the current array at [ping] and the registers [xs] of the
    workers both hold the windows of [v]. *)
Definition windows_at (d : T) (v : list T) (W k ping : nat) (m xs : list T) : Prop :=
  length xs = W ∧
  ∀ i, i < W →
    m !! (ping + i) = Some (window d v k i) ∧ xs !! i = Some (window d v k i).

(** The sizes that the [int] counters of the code can hold: a group of
    [W >= 1] workers with grain [G >= 1], a tile of [W * G] elements and a
    source range of [n] elements. *)
Definition representable (W G n : nat) : Prop :=
  0 < W ∧ 0 < G ∧
  (Z.of_nat (W * G) < 2147483648)%Z ∧ (Z.of_nat n < 2147483648)%Z.

End reference.

Section reference_tiled.

Context {I M : Type}.

(** What the registers of worker [t] hold after the accumulate phase. *)
Definition slice_loaded (G : nat) (tl : list I) (t : nat) (l : worker_locals I) : Prop :=
  local_offset l = Z.of_nat (G * t) ∧
  local_size l = Z.of_nat (min G (length tl - G * t)) ∧
  length (local_inputs l) = G ∧
  ∀ j, j < G → G * t + j < length tl → local_inputs l !! j = Some (tl !! (G * t + j)).

(** The scratch buffer has room for [2 * W] sums and for one tile. *)
Definition capacity (W G : nat) (b : scan_buffer I M) : Prop :=
  W + W ≤ length (sums b) ∧ W * G ≤ length (stage b).

(** The state in which [scan_with_buffer] enters its loop. *)
Definition entry (dst : list M) (r : nat) (init : M) (b : scan_buffer I M)
    : loop_state I M :=
  {| first := 0; result := Z.of_nat r; carry_in := init; buffer := b; dest := dst |}.

(** The conversions lose nothing: an intermediate value comes back from
    [input_type] as it went, and [binary_op] on values of [input_type],
    converted into [x], is [binary_op] on their intermediate values.  This is
    so when the two types are the same. *)
Definition exact_conversions (F : instantiation I M) : Prop :=
  (∀ m, to_intermediate F (to_input F m) = m) ∧
  (∀ a b, to_intermediate F (binary_op_x F a b)
          = binary_op F (to_intermediate F a) (to_intermediate F b)) ∧
  (∀ a, to_intermediate F (conditional_x F a) = to_intermediate F a) ∧
  (∀ a b, to_intermediate F (conditional_op_x F a b)
          = binary_op F (to_intermediate F a) (to_intermediate F b)).

(** What [x] holds when a worker has accumulated the slice [l] (lines
    162-170); an empty slice leaves [x] as it was declared. *)
Definition slice_sum (F : instantiation I M) (l : list I) : option I :=
  match l with
  | [] => None
  | v :: l' => Some (fold_left (conditional_op_x F) l' (conditional_x F v))
  end.

(** What worker [t] finds in [sums[t]] after the small scan (line 184) in a
    pass over the tile [tl] that starts with [carry_in = c]: [c] combined
    with what the workers before it stored at line 174. *)
Fixpoint worker_seed (F : instantiation I M) (G : nat) (tl : list I) (c : M)
    (t : nat) : M :=
  match t with
  | O => c
  | S t' =>
      match slice_sum F (chunk G tl t') with
      | Some y => binary_op F (worker_seed F G tl c t') (to_intermediate F y)
      | None => worker_seed F G tl c t'
      end
  end.

(** What that pass stores at [stage.results[a]] (lines 189-206): worker
    [a / G] starts from its seed, brought to [input_type], and combines it
    with the elements of its slice up to [a]. *)
Definition tile_output (F : instantiation I M) (G : nat) (inclusive : bool) (c : M)
    (tl : list I) (a : nat) : M :=
  to_intermediate F
    (fold_left (binary_op_x F)
       (take (if inclusive then S (a `mod` G) else a `mod` G)
             (chunk G tl (a `div` G)))
       (to_input F (worker_seed F G tl c (a `div` G)))).

End reference_tiled.

(** ** Two instantiations of the templates side by side

    The functions are templates in the element types and in [binary_op].
    Relations between the element types of two instantiations lift to
    everything the functions work on, and the two are then compared state
    by state. *)

Definition pair_rel {A A' B B' : Type} (RA : A → A' → Prop) (RB : B → B' → Prop)
    (x : A * B) (y : A' * B') : Prop :=
  RA x.1 y.1 ∧ RB x.2 y.2.

Section relations.

Context {I I' M M' : Type}.
Variable RI : I → I' → Prop.
Variable RM : M → M' → Prop.

Definition slot_rel (c : I + M) (c' : I' + M') : Prop :=
  match c, c' with
  | inl v, inl v' => RI v v'
  | inr v, inr v' => RM v v'
  | _, _ => False
  end.

Definition buffer_rel (b : scan_buffer I M) (b' : scan_buffer I' M') : Prop :=
  Forall2 RM (sums b) (sums b') ∧ Forall2 slot_rel (stage b) (stage b').

Definition locals_rel (l : worker_locals I) (l' : worker_locals I') : Prop :=
  local_offset l = local_offset l' ∧ local_size l = local_size l' ∧
  option_Forall2 RI (local_x l) (local_x l') ∧
  Forall2 (option_Forall2 RI) (local_inputs l) (local_inputs l').

Definition state_rel (st : loop_state I M) (st' : loop_state I' M') : Prop :=
  first st = first st' ∧ result st = result st' ∧
  RM (carry_in st) (carry_in st') ∧
  buffer_rel (buffer st) (buffer st') ∧
  Forall2 RM (dest st) (dest st').

(** The operations of the two instantiations take related values to
    related values. *)
Definition instantiation_rel (F : instantiation I M) (F' : instantiation I' M')
    : Prop :=
  (∀ a a' b b', RM a a' → RM b b' → RM (binary_op F a b) (binary_op F' a' b')) ∧
  (∀ a a' b b', RI a a' → RI b b' →
     RI (binary_op_x F a b) (binary_op_x F' a' b')) ∧
  (∀ a a', RI a a' → RI (conditional_x F a) (conditional_x F' a')) ∧
  (∀ a a', RI a a' → RM (to_intermediate F a) (to_intermediate F' a')) ∧
  (∀ m m', RM m m' → RI (to_input F m) (to_input F' m')) ∧
  (∀ a a' b b', RI a a' → RI b b' →
     RI (conditional_op_x F a b) (conditional_op_x F' a' b')).

End relations.

(** The cells of a scratch buffer: [inl i] is [sums[i]], [inr i] is slot [i]
    of the staging area. *)
Definition buffer_cells {I M : Type} (b : scan_buffer I M) (a : nat + nat)
    : option (M + (I + M)) :=
  match a with
  | inl i => inl <$> sums b !! i
  | inr i => inr <$> stage b !! i
  end.

(** ** Integers and arrays *)

Lemma to_int_small (z : Z) :
  (-2147483648 ≤ z < 2147483648)%Z → to_int z = z.
Proof. intros Hz. unfold to_int. rewrite Z.mod_small; lia. Qed.

Lemma to_uint_small (z : Z) : (0 ≤ z < 4294967296)%Z → to_uint z = z.
Proof. intros Hz. unfold to_uint. apply Z.mod_small. lia. Qed.

Lemma to_uint_to_int (z : Z) : (0 ≤ z < 4294967296)%Z → to_uint (to_int z) = z.
Proof.
  intros Hz. unfold to_uint, to_int.
  rewrite Zminus_mod_idemp_l. rewrite Z.mod_small; lia.
Qed.

Lemma load_nat {A : Type} (m : list A) (z : Z) (i : nat) :
  z = Z.of_nat i → load m z = m !! i.
Proof.
  intros ->. unfold load.
  destruct (Z.leb_spec 0 (Z.of_nat i)); [by rewrite Nat2Z.id | lia].
Qed.

Lemma store_nat {A : Type} (m : list A) (z : Z) (i : nat) (v : A) :
  z = Z.of_nat i → i < length m → store m z v = Some (<[i:=v]> m).
Proof.
  intros -> Hi. unfold store.
  destruct (Z.leb_spec 0 (Z.of_nat i)); [| lia].
  destruct (Z.ltb_spec (Z.of_nat i) (Z.of_nat (length m))); [| lia].
  by rewrite Nat2Z.id.
Qed.

(** ** The rule for a phase *)

(** An invariant [I k s] of the shared state before worker [k] runs, and a
    relation [R k p q] between the private state of worker [k] before and
    after the phase. *)
Lemma each_worker_inv {St P Q : Type} (body : nat → St → P → option (St * Q))
    (I : nat → St → Prop) (R : nat → P → Q → Prop) (ps : list P) :
  ∀ (t0 : nat) (s : St),
  I t0 s →
  (∀ k p s0, ps !! k = Some p → I (t0 + k) s0 →
     ∃ s1 q, body (t0 + k) s0 p = Some (s1, q) ∧ I (t0 + S k) s1 ∧ R (t0 + k) p q) →
  ∃ s' qs, each_worker body t0 s ps = Some (s', qs) ∧
    I (t0 + length ps) s' ∧ length qs = length ps ∧
    ∀ k p q, ps !! k = Some p → qs !! k = Some q → R (t0 + k) p q.
Proof.
  induction ps as [|p ps IH]; intros t0 s HI Hstep; simpl.
  - exists s, []. rewrite Nat.add_0_r. repeat split; auto. intros k ? ? Hk. done.
  - destruct (Hstep 0 p s) as (s1 & q & Hb & HI1 & HR); [done | by rewrite Nat.add_0_r |].
    rewrite Nat.add_0_r in Hb, HR. rewrite Hb. simpl.
    destruct (IH (S t0) s1) as (s2 & qs & He & HI2 & Hlen & HRs).
    { by rewrite Nat.add_1_r in HI1. }
    { intros k p' s0 Hk HI0.
      destruct (Hstep (S k) p' s0) as (s3 & q' & ? & ? & ?); [done | |].
      - by rewrite Nat.add_succ_r.
      - exists s3, q'. by rewrite !Nat.add_succ_r in *. }
    rewrite He. simpl. exists s2, (q :: qs). repeat split.
    + by rewrite Nat.add_succ_r.
    + simpl. by rewrite Hlen.
    + intros [|k] p' q' Hp Hq; simpl in *.
      * simplify_eq. by rewrite Nat.add_0_r.
      * rewrite Nat.add_succ_r. by eapply HRs.
Qed.

(** ** Folds of an associative operation *)

Section folds.

Context {T : Type}.
Variable binary_op : T → T → T.
Context `{!Assoc (=) binary_op}.

Local Abbreviation foldl := (fold_left binary_op).

Lemma foldl_op (a b : T) (l : list T) :
  foldl l (binary_op a b) = binary_op a (foldl l b).
Proof.
  revert b. induction l as [|c l IH]; intros b; simpl; [done |].
  by rewrite <- IH, (assoc binary_op).
Qed.

Lemma foldl_app_cons (a b : T) (l1 l2 : list T) :
  foldl (l1 ++ b :: l2) a = binary_op (foldl l1 a) (foldl l2 b).
Proof. rewrite fold_left_app. simpl. apply foldl_op. Qed.

Lemma foldl_fold (c : T) (l : list T) (y : T) :
  fold binary_op l = Some y → foldl l c = binary_op c y.
Proof.
  destruct l as [|a l]; simpl; [done |]. intros [= <-]. apply foldl_op.
Qed.

Lemma fold_is_Some (l : list T) : l ≠ [] → is_Some (fold binary_op l).
Proof. destruct l; [done | by eexists]. Qed.

Lemma segment_same (d : T) (v : list T) (i : nat) (a : T) :
  v !! i = Some a → segment binary_op d v i i = a.
Proof. intros Hi. unfold segment. by rewrite Nat.sub_diag, take_0, Hi. Qed.

Lemma segment_split (d : T) (v : list T) (lo mid hi : nat) :
  lo ≤ mid → mid < hi → hi < length v →
  binary_op (segment binary_op d v lo mid) (segment binary_op d v (S mid) hi)
  = segment binary_op d v lo hi.
Proof.
  intros Hlo Hmid Hhi. unfold segment.
  destruct (lookup_lt_is_Some_2 v (S mid)) as [b Hb]; [lia |].
  rewrite Hb. simpl.
  replace (hi - lo) with ((mid - lo) + S (hi - S mid)) by lia.
  rewrite <- take_take_drop, drop_drop.
  replace (S lo + (mid - lo)) with (S mid) by lia.
  rewrite (drop_S _ _ _ Hb). simpl.
  by rewrite foldl_app_cons.
Qed.

Lemma segment_prefix (d : T) (v : list T) (init a : T) (i : nat) :
  v !! 0 = Some a →
  segment binary_op d (<[0:=binary_op init a]> v) 0 i = foldl (take (S i) v) init.
Proof.
  intros Ha. destruct v as [|a' v]; [done |]. simpl in Ha. simplify_eq.
  unfold segment. simpl. by rewrite Nat.sub_0_r, drop_0.
Qed.

Lemma window_double (d : T) (v : list T) (k i : nat) :
  0 < k → k ≤ i → i < length v →
  binary_op (window binary_op d v k (i - k)) (window binary_op d v k i)
  = window binary_op d v (k + k) i.
Proof.
  intros Hk Hki Hi. unfold window.
  replace (S i - min (S i) k) with (S (i - k)) by lia.
  replace (S i - min (S i) (k + k)) with (S (i - k) - min (S (i - k)) k) by lia.
  apply segment_split; lia.
Qed.

Lemma window_keep (d : T) (v : list T) (k i : nat) :
  i < k → window binary_op d v (k + k) i = window binary_op d v k i.
Proof. intros Hi. unfold window. f_equal. lia. Qed.

Lemma window_full (d : T) (v : list T) (k i : nat) :
  i < k → window binary_op d v k i = segment binary_op d v 0 i.
Proof. intros Hi. unfold window. f_equal. lia. Qed.

End folds.

(** ** The small group-wide scan *)

Section small_scan.

Context {T : Type}.
Variable binary_op : T → T → T.
Context `{!Assoc (=) binary_op}.

Local Abbreviation foldl := (fold_left binary_op).

(** [W] is the number of workers, [first] and [buffer] are the two pointers
    into the array. *)

Lemma seed_phase (W first : nat) (m : list T) (init a : T) :
  0 < W → (Z.of_nat W ≤ 2147483648)%Z →
  first + W ≤ length m →
  m !! first = Some a →
  ∃ xs, each_worker (small_scan_seed binary_op (Z.of_nat first) init) 0 m (replicate W ())
        = Some (<[first:=binary_op init a]> m, xs) ∧
    length xs = W ∧
    ∀ i, i < W → xs !! i = <[first:=binary_op init a]> m !! (first + i).
Proof.
  intros W_pos W_int Hlen Ha.
  set (m0 := <[first:=binary_op init a]> m).
  destruct (each_worker_inv (small_scan_seed binary_op (Z.of_nat first) init)
              (λ k s, s = if decide (k = 0) then m else m0)
              (λ k _ q, m0 !! (first + k) = Some q)
              (replicate W ()) 0 m) as (s' & xs & He & HI & Hl & HR).
  { done. }
  { intros k p s0 Hk Hs0. simpl in Hs0 |- *. subst s0.
    apply lookup_replicate_1 in Hk as [_ Hk].
    unfold small_scan_seed. rewrite to_int_small by lia.
    destruct (lookup_lt_is_Some_2 m0 (first + k)) as [q Hq].
    { unfold m0. rewrite length_insert. lia. }
    exists m0, q. destruct k as [|k]; simpl.
    - rewrite (load_nat m _ first) by lia. rewrite Ha. simpl.
      rewrite (store_nat m _ first) by lia. simpl. fold m0.
      rewrite (load_nat m0 _ first) by lia.
      rewrite Nat.add_0_r in Hq |- *. by rewrite Hq.
    - rewrite (load_nat m0 _ (first + S k)) by lia. by rewrite Hq. }
  simpl in HI. rewrite length_replicate in HI, Hl.
  destruct (decide (W = 0)); [lia |]. subst s'.
  exists xs. repeat split; [done.. |].
  intros i Hi.
  destruct (lookup_lt_is_Some_2 xs i) as [q Hq]; [lia |].
  rewrite Hq. symmetry. eapply (HR i ()); [by apply lookup_replicate_2 | done].
Qed.

Lemma round_phase (W : nat) (d : T) (v : list T) (k ping pong : nat) (m xs : list T) :
  (Z.of_nat W ≤ 2147483648)%Z →
  length v = W → 0 < k → k < W →
  ping + W ≤ length m → pong + W ≤ length m →
  ping + W ≤ pong ∨ pong + W ≤ ping →
  windows_at binary_op d v W k ping m xs →
  ∃ m' xs',
    each_worker (small_scan_round binary_op (Z.of_nat k) (Z.of_nat ping) (Z.of_nat pong))
      0 m xs = Some (m', xs') ∧
    windows_at binary_op d v W (k + k) pong m' xs' ∧
    length m' = length m ∧
    ∀ a, ¬ (pong ≤ a < pong + W) → m' !! a = m !! a.
Proof.
  intros W_int Hv Hk HkW Hping Hpong Hdisj [Hxs Hwin].
  destruct (each_worker_inv
              (small_scan_round binary_op (Z.of_nat k) (Z.of_nat ping) (Z.of_nat pong))
              (λ t s, length s = length m ∧
                 ∀ a, s !! a = if decide (pong ≤ a < pong + t)
                               then Some (window binary_op d v (k + k) (a - pong))
                               else m !! a)
              (λ t _ q, q = window binary_op d v (k + k) t)
              xs 0 m) as (m' & xs' & He & [Hlen HI] & Hl & HR).
  { split; [done |]. intros a. case_decide; [lia | done]. }
  { intros i x s0 Hi [Hlen0 Hs0]. simpl in Hs0, Hlen0 |- *.
    assert (i < W) as HiW by (apply lookup_lt_Some in Hi; lia).
    destruct (Hwin i HiW) as [Hm Hx]. rewrite Hi in Hx. simplify_eq.
    unfold small_scan_round. rewrite to_int_small by lia.
    exists (<[pong + i := window binary_op d v (k + k) i]> s0),
           (window binary_op d v (k + k) i).
    assert (∀ y, store s0 (Z.of_nat pong + Z.of_nat i) y = Some (<[pong + i := y]> s0))
      as Hstore by (intros y; apply store_nat; lia).
    split; [| split; [split |]].
    - destruct (Z.leb_spec (Z.of_nat k) (Z.of_nat i)).
      + rewrite to_int_small by lia.
        rewrite (load_nat s0 _ (ping + (i - k))) by lia.
        rewrite Hs0. case_decide; [lia |].
        destruct (Hwin (i - k)) as [-> _]; [lia |]. simpl.
        rewrite window_double by (lia || apply _).
        by rewrite Hstore.
      + simpl. rewrite Hstore. simpl. by rewrite window_keep by lia.
    - by rewrite length_insert.
    - intros a. destruct (decide (a = pong + i)) as [-> | Hne].
      + rewrite list_lookup_insert_eq by lia.
        case_decide; [| lia]. do 2 f_equal. lia.
      + rewrite list_lookup_insert_ne by lia. rewrite Hs0.
        repeat case_decide; done || lia.
    - done. }
  exists m', xs'. simpl in HI, HR, Hlen. split; [done |]. split; [| split].
  - split; [lia |]. intros i Hi. split.
    + rewrite HI. case_decide; [| lia]. do 2 f_equal. lia.
    + destruct (lookup_lt_is_Some_2 xs' i) as [q Hq]; [lia |].
      destruct (lookup_lt_is_Some_2 xs i) as [p Hp]; [lia |].
      rewrite Hq. f_equal. by eapply (HR i p q).
  - done.
  - intros a Ha. rewrite HI. case_decide; [lia | done].
Qed.

Lemma loop_rounds (W : nat) (d : T) (v : list T) :
  (Z.of_nat W ≤ 2147483648)%Z → length v = W →
  ∀ (fuel k ping pong : nat) (m xs : list T),
  0 < k → k < W + W → W - k ≤ fuel →
  ping + W ≤ length m → pong + W ≤ length m →
  ping + W ≤ pong ∨ pong + W ≤ ping →
  windows_at binary_op d v W k ping m xs →
  ∃ (k' ping' : nat) (m' xs' : list T),
    small_scan_loop binary_op fuel (Z.of_nat W) (to_int (Z.of_nat k))
      (Z.of_nat ping) (Z.of_nat pong) m xs = Some (Z.of_nat ping', m', xs') ∧
    W ≤ k' ∧ windows_at binary_op d v W k' ping' m' xs' ∧
    (ping' = ping ∨ ping' = pong) ∧ length m' = length m ∧
    ∀ a, ¬ (ping ≤ a < ping + W) → ¬ (pong ≤ a < pong + W) → m' !! a = m !! a.
Proof.
  intros W_int Hv fuel.
  induction fuel as [|fuel IH]; intros k ping pong m xs Hk Hk2 Hfuel Hping Hpong Hdisj Hwin;
    simpl; rewrite to_uint_to_int by lia;
    destruct (Z.ltb_spec (Z.of_nat k) (Z.of_nat W)) as [Hlt | Hge].
  - lia.
  - exists k, ping, m, xs.
    split; [done |]. split; [lia |]. split; [done |]. split; [by left |]. by split.
  - destruct (round_phase W d v k ping pong m xs) as (m1 & xs1 & He & Hwin1 & Hlen1 & Hout1);
      [done || lia ..|].
    rewrite (to_int_small (Z.of_nat k)) by lia. rewrite He. simpl.
    replace (Z.of_nat k + Z.of_nat k)%Z with (Z.of_nat (k + k)) by lia.
    destruct (IH (k + k) pong ping m1 xs1) as (k' & ping' & m' & xs' & He' & ? & ? & ? & ? & Hout');
      [lia.. | done |].
    exists k', ping', m', xs'.
    split; [done |]. split; [done |]. split; [done |].
    split; [tauto |]. split; [lia |].
    intros a Ha1 Ha2. rewrite Hout' by done. by apply Hout1.
  - exists k, ping, m, xs.
    split; [done |]. split; [lia |]. split; [done |]. split; [by left |]. by split.
Qed.

Lemma shift_phase (W : nat) (d : T) (v : list T) (k ping : nat) (init : T) (m xs : list T) :
  (Z.of_nat W ≤ 2147483648)%Z → W ≤ k →
  windows_at binary_op d v W k ping m xs →
  ∃ xs', each_worker (small_scan_shift (Z.of_nat ping) init) 0 m xs = Some (m, xs') ∧
    length xs' = W ∧
    ∀ i, i < W →
      xs' !! i = Some (if decide (i = 0) then init else segment binary_op d v 0 (i - 1)).
Proof.
  intros W_int Hk [Hxs Hwin].
  destruct (each_worker_inv (small_scan_shift (Z.of_nat ping) init)
              (λ _ s, s = m)
              (λ i _ q, q = if decide (i = 0) then init else segment binary_op d v 0 (i - 1))
              xs 0 m) as (m' & xs' & He & HI & Hl & HR).
  { done. }
  { intros i x s0 Hi Hs0. simpl in Hs0 |- *. subst s0.
    assert (i < W) as HiW by (apply lookup_lt_Some in Hi; lia).
    unfold small_scan_shift. rewrite to_int_small by lia.
    destruct i as [|i]; simpl.
    - by eexists _, _.
    - destruct (Z.eqb_spec (Z.of_nat (S i)) 0); [lia |].
      rewrite to_int_small by lia.
      rewrite (load_nat m _ (ping + i)) by lia.
      destruct (Hwin i) as [-> _]; [lia |]. simpl.
      eexists _, _. repeat split. rewrite Nat.sub_0_r. apply window_full. lia. }
  simpl in HI, HR. subst m'. exists xs'. repeat split; [done | lia |].
  intros i Hi.
  destruct (lookup_lt_is_Some_2 xs' i) as [q Hq]; [lia |].
  destruct (lookup_lt_is_Some_2 xs i) as [p Hp]; [lia |].
  rewrite Hq. f_equal. by eapply (HR i p q).
Qed.

Lemma writeback_phase (W first : nat) (m xs : list T) :
  (Z.of_nat W ≤ 2147483648)%Z → length xs = W → first + W ≤ length m →
  ∃ m' us, each_worker (small_scan_writeback (Z.of_nat first)) 0 m xs = Some (m', us) ∧
    length m' = length m ∧
    ∀ a, m' !! a = if decide (first ≤ a < first + W) then xs !! (a - first) else m !! a.
Proof.
  intros W_int Hxs Hfirst.
  destruct (each_worker_inv (small_scan_writeback (Z.of_nat first))
              (λ t s, length s = length m ∧
                 ∀ a, s !! a = if decide (first ≤ a < first + t)
                               then xs !! (a - first) else m !! a)
              (λ _ _ _, True)
              xs 0 m) as (m' & us & He & [Hlen HI] & Hl & HR).
  { split; [done |]. intros a. case_decide; [lia | done]. }
  { intros i x s0 Hi [Hlen0 Hs0]. simpl in Hs0, Hlen0 |- *.
    assert (i < W) as HiW by (apply lookup_lt_Some in Hi; lia).
    unfold small_scan_writeback. rewrite to_int_small by lia.
    rewrite (store_nat s0 _ (first + i)) by lia. simpl.
    eexists _, _. split; [done |]. split; [| done]. split.
    - by rewrite length_insert.
    - intros a. destruct (decide (a = first + i)) as [-> | Hne].
      + rewrite list_lookup_insert_eq by lia. case_decide; [| lia].
        rewrite <- Hi. f_equal. lia.
      + rewrite list_lookup_insert_ne by lia. rewrite Hs0.
        repeat case_decide; done || lia. }
  simpl in HI. rewrite Hxs in HI. by exists m', us.
Qed.

(** The function as a whole, on the [W] values [v = first[0..W)]: it returns
    the fold of [init] and [v], and leaves the exclusive prefixes in [first]. *)
Lemma small_scan_correct (W first buffer : nat) (m : list T) (init : T) :
  0 < W → (Z.of_nat W ≤ 2147483648)%Z →
  first + W ≤ length m → buffer + W ≤ length m →
  first + W ≤ buffer ∨ buffer + W ≤ first →
  ∃ m',
    small_inplace_exclusive_scan_with_buffer binary_op (Z.of_nat W) W m
      (Z.of_nat first) init (Z.of_nat buffer)
    = Some (m', foldl (take W (drop first m)) init) ∧
    length m' = length m ∧
    (∀ i, i < W → m' !! (first + i) = Some (foldl (take i (drop first m)) init)) ∧
    (∀ a, ¬ (first ≤ a < first + W) → ¬ (buffer ≤ a < buffer + W) → m' !! a = m !! a).
Proof.
  intros W_pos W_int Hfirst Hbuffer Hdisj.
  destruct (lookup_lt_is_Some_2 m first) as [a Ha]; [lia |].
  set (m0 := <[first:=binary_op init a]> m).
  set (v0 := take W (drop first m)).
  set (v := <[0:=binary_op init a]> v0).
  assert (length v0 = W) as Hv0 by (unfold v0; rewrite length_take, length_drop; lia).
  assert (length v = W) as Hv by (unfold v; by rewrite length_insert).
  assert (v0 !! 0 = Some a) as Hv00.
  { unfold v0. rewrite lookup_take_lt, lookup_drop by lia. by rewrite Nat.add_0_r. }
  assert (∀ i, i < W → m0 !! (first + i) = v !! i) as Hm0.
  { intros i Hi. unfold m0, v. destruct i as [|i].
    - rewrite Nat.add_0_r, !list_lookup_insert_eq by lia. done.
    - rewrite !list_lookup_insert_ne by lia. unfold v0.
      by rewrite lookup_take_lt, lookup_drop by lia. }
  assert (∀ i, i < W → segment binary_op init v 0 i = foldl (take (S i) (drop first m)) init)
    as Hseg.
  { intros i Hi. unfold v. rewrite (segment_prefix _ _ _ _ a) by done.
    unfold v0. rewrite take_take. f_equal. f_equal. lia. }
  unfold small_inplace_exclusive_scan_with_buffer.
  destruct (seed_phase W first m init a) as (xs0 & -> & Hxs0 & Hx0); [done.. |]. simpl.
  fold m0 in Hx0 |- *. rewrite Nat2Z.id.
  change (small_scan_loop binary_op W (Z.of_nat W) 1)
    with (small_scan_loop binary_op W (Z.of_nat W) (to_int (Z.of_nat 1))).
  destruct (loop_rounds W init v W_int Hv W 1 first buffer m0 xs0)
    as (k & ping & m1 & xs1 & -> & Hk & Hwin & Hping & Hlen1 & Hout1).
  { lia. } { lia. } { lia. }
  { unfold m0. rewrite length_insert. lia. }
  { unfold m0. rewrite length_insert. lia. }
  { done. }
  { split; [done |]. intros i Hi.
    destruct (lookup_lt_is_Some_2 v i) as [y Hy]; [lia |].
    unfold window. replace (S i - min (S i) 1) with i by lia.
    rewrite (segment_same _ _ _ _ y) by done.
    rewrite Hx0, Hm0 by done. done. }
  simpl. rewrite to_uint_small by lia.
  rewrite (load_nat m1 _ (ping + (W - 1))) by lia.
  destruct Hwin as [Hxs1 Hwin1].
  destruct (Hwin1 (W - 1)) as [-> _]; [lia |]. simpl.
  destruct (shift_phase W init v k ping init m1 xs1) as (xs2 & -> & Hxs2 & Hx2);
    [done.. |]. simpl.
  destruct (writeback_phase W first m1 xs2) as (m3 & us & -> & Hlen3 & Hm3).
  { done. } { done. }
  { rewrite Hlen1. unfold m0. rewrite length_insert. lia. }
  simpl. exists m3. split; [| split; [| split]].
  - do 2 f_equal. rewrite window_full by lia. rewrite Hseg by lia.
    replace (S (W - 1)) with W by lia. done.
  - rewrite Hlen3, Hlen1. unfold m0. by rewrite length_insert.
  - intros i Hi. rewrite Hm3. case_decide; [| lia].
    replace (first + i - first) with i by lia. rewrite Hx2 by done.
    f_equal. case_decide.
    + by subst i.
    + rewrite Hseg by lia. by replace (S (i - 1)) with i by lia.
  - intros b Hb1 Hb2. rewrite Hm3. case_decide; [lia |].
    rewrite Hout1 by lia. unfold m0. by rewrite list_lookup_insert_ne by lia.
Qed.

End small_scan.

(** ** The collective copy and the counted loop *)

Lemma copy_loop_spec {A B : Type} (via : A → option B) (k : nat) :
  ∀ (src : list A) (s : nat) (dst : list B) (d : nat),
  (∀ j, s ≤ j < s + k → is_Some (src !! j ≫= via)) →
  d + k ≤ length dst →
  ∃ dst', copy_loop via k src (Z.of_nat s) dst (Z.of_nat d) = Some dst' ∧
    length dst' = length dst ∧
    ∀ j, dst' !! j = if decide (d ≤ j < d + k)
                     then src !! (s + (j - d)) ≫= via else dst !! j.
Proof.
  induction k as [|k IH]; intros src s dst d Hs Hd; simpl.
  - exists dst. repeat split. intros j. case_decide; [lia | done].
  - destruct (Hs s) as [w Hw]; [lia |].
    rewrite (load_nat src _ s) by done. rewrite Hw. simpl.
    rewrite (store_nat dst _ d) by lia. simpl.
    destruct (IH src (S s) (<[d:=w]> dst) (S d)) as (dst' & He & Hlen & Hdst').
    { intros j Hj. apply Hs. lia. } { rewrite length_insert. lia. }
    replace (Z.of_nat s + 1)%Z with (Z.of_nat (S s)) by lia.
    replace (Z.of_nat d + 1)%Z with (Z.of_nat (S d)) by lia.
    exists dst'. split; [done |]. split; [by rewrite Hlen, length_insert |].
    intros j. rewrite Hdst'. destruct (decide (j = d)) as [-> | Hne].
    + case_decide; [lia |]. rewrite list_lookup_insert_eq by lia.
      case_decide; [| lia]. rewrite <- Hw. do 2 f_equal. lia.
    + rewrite list_lookup_insert_ne by done.
      repeat case_decide; try lia; try done. do 2 f_equal. lia.
Qed.

Lemma copy_n_spec {A B : Type} (via : A → option B) (src : list A) (s n : nat)
    (dst : list B) (d : nat) :
  (∀ j, s ≤ j < s + n → is_Some (src !! j ≫= via)) →
  d + n ≤ length dst →
  ∃ dst', copy_n via src (Z.of_nat s) (Z.of_nat n) dst (Z.of_nat d) = Some dst' ∧
    length dst' = length dst ∧
    ∀ j, dst' !! j = if decide (d ≤ j < d + n)
                     then src !! (s + (j - d)) ≫= via else dst !! j.
Proof. intros Hs Hd. unfold copy_n. rewrite Nat2Z.id. by apply copy_loop_spec. Qed.

(** An invariant [I j s] of the loop state before the pass with counter [j]. *)
Lemma for_range_inv {St : Type} (body : Z → St → option St) (I : nat → St → Prop)
    (n : nat) :
  ∀ (i : nat) (s : St),
  (Z.of_nat (i + n) ≤ 2147483648)%Z →
  I i s →
  (∀ j s0, i ≤ j < i + n → I j s0 → ∃ s1, body (Z.of_nat j) s0 = Some s1 ∧ I (S j) s1) →
  ∃ s', for_range i n body s = Some s' ∧ I (i + n) s'.
Proof.
  induction n as [|n IH]; intros i s Hn HI Hstep; simpl.
  - exists s. by rewrite Nat.add_0_r.
  - destruct (Hstep i s) as (s1 & Hb & HI1); [lia | done |].
    rewrite to_int_small by lia. rewrite Hb. simpl.
    destruct (IH (S i) s1) as (s' & He & HI'); [lia | done | |].
    + intros j s0 Hj. apply Hstep. lia.
    + exists s'. split; [done |]. by replace (i + S n) with (S i + n) by lia.
Qed.

(** ** Slices and prefixes *)

Section slices.

Context {T : Type}.
Variable binary_op : T → T → T.
Context `{!Assoc (=) binary_op}.

Local Abbreviation foldl := (fold_left binary_op).

Lemma slice_bound (W G t : nat) : t < W → G * t + G ≤ W * G.
Proof. nia. Qed.

Lemma fold_snoc (l : list T) (v : T) :
  fold binary_op (l ++ [v])
  = Some (match fold binary_op l with Some y => binary_op y v | None => v end).
Proof. destruct l as [|a l]; simpl; [done |]. by rewrite fold_left_app. Qed.

Lemma chunk_lookup (G : nat) (tl : list T) (t j : nat) :
  j < G → chunk G tl t !! j = tl !! (G * t + j).
Proof. intros Hj. unfold chunk. by rewrite lookup_take_lt, lookup_drop. Qed.

Lemma chunk_length (G : nat) (tl : list T) (t : nat) :
  length (chunk G tl t) = min G (length tl - G * t).
Proof. unfold chunk. by rewrite length_take, length_drop. Qed.

Lemma chunk_nonempty (G : nat) (tl : list T) (t : nat) :
  0 < G → G * t < length tl → is_Some (fold binary_op (chunk G tl t)).
Proof.
  intros HG Ht. apply fold_is_Some. intros Hnil.
  apply (f_equal length) in Hnil. rewrite chunk_length in Hnil.
  cbn [length] in Hnil. lia.
Qed.

Lemma chunk_empty (G : nat) (tl : list T) (t : nat) :
  length tl ≤ G * t → chunk G tl t = [].
Proof. intros Ht. unfold chunk. by rewrite drop_ge, take_nil by done. Qed.

Lemma prefix_step (c : T) (tl : list T) (n : nat) (e : T) :
  tl !! n = Some e → foldl (take (S n) tl) c = binary_op (foldl (take n tl) c) e.
Proof. intros He. by rewrite (take_S_r _ _ _ He), fold_left_app. Qed.

(** Folding the folds of the first [t] slices is folding the first
    [G * t] elements. *)
Lemma fold_chunks (G : nat) (tl v : list T) (c : T) (t : nat) :
  t ≤ length v →
  (∀ a, a < t → v !! a = fold binary_op (chunk G tl a)) →
  foldl (take t v) c = foldl (take (G * t) tl) c.
Proof.
  induction t as [|t IH]; intros Ht Hv.
  - by rewrite Nat.mul_0_r, !take_0.
  - destruct (lookup_lt_is_Some_2 v t) as [y Hy]; [lia |].
    rewrite (take_S_r _ _ _ Hy), fold_left_app. cbn [fold_left].
    rewrite IH by (lia || (intros; apply Hv; lia)).
    rewrite Hv in Hy by lia.
    rewrite <- (foldl_fold binary_op _ _ _ Hy).
    unfold chunk. rewrite <- fold_left_app, take_take_drop.
    do 2 f_equal. lia.
Qed.

Lemma prefix_take (inclusive : bool) (c : T) (l : list T) (n j : nat) :
  j < n → prefix binary_op inclusive c (take n l) j = prefix binary_op inclusive c l j.
Proof.
  intros Hj. unfold prefix. rewrite take_take. do 2 f_equal. destruct inclusive; lia.
Qed.

Lemma prefix_drop (inclusive : bool) (c : T) (l : list T) (n j : nat) :
  prefix binary_op inclusive (foldl (take n l) c) (drop n l) j
  = prefix binary_op inclusive c l (n + j).
Proof.
  unfold prefix. rewrite <- fold_left_app, take_take_drop.
  do 2 f_equal. destruct inclusive; lia.
Qed.

End slices.

(** ** One pass of the tile loop *)

Section tile.

Context {I M : Type}.
Variable F : instantiation I M.

Local Abbreviation op := (binary_op F).
Local Abbreviation bx := (binary_op_x F).
Local Abbreviation cx := (conditional_op_x F).
Local Abbreviation ti := (to_intermediate F).
Local Abbreviation foldl := (fold_left (binary_op F)).

Lemma slice_sum_snoc (l : list I) (v : I) :
  slice_sum F (l ++ [v])
  = Some (match slice_sum F l with Some y => cx y v | None => conditional_x F v end).
Proof. destruct l as [|a l]; simpl; [done |]. by rewrite fold_left_app. Qed.

Lemma slice_sum_is_Some (l : list I) : l ≠ [] → is_Some (slice_sum F l).
Proof. destruct l; [done | by eexists]. Qed.

Lemma slice_nonempty (G : nat) (tl : list I) (t : nat) :
  0 < G → G * t < length tl → is_Some (slice_sum F (chunk G tl t)).
Proof.
  intros HG Ht. apply slice_sum_is_Some. intros Hnil.
  apply (f_equal length) in Hnil. rewrite chunk_length in Hnil.
  cbn [length] in Hnil. lia.
Qed.

(** The fused copy and accumulate loop of worker [t] on the tile [tl]. *)
Lemma accumulate_loop (G : nat) (inputs : list (I + M)) (tl : list I) (t : nat) :
  (Z.of_nat (G * t + G) < 2147483648)%Z →
  (∀ j, j < length tl → inputs !! j = inl <$> tl !! j) →
  ∃ li,
    for_range 0 G
      (accumulate_step F inputs (Z.of_nat (length tl)) (Z.of_nat (G * t)))
      (None, replicate G None) = Some (slice_sum F (chunk G tl t), li) ∧
    length li = G ∧
    ∀ j, j < G → G * t + j < length tl → li !! j = Some (tl !! (G * t + j)).
Proof.
  intros Hint Hin. set (c := chunk G tl t).
  destruct (for_range_inv
              (accumulate_step F inputs (Z.of_nat (length tl)) (Z.of_nat (G * t)))
              (λ i s, s.1 = slice_sum F (take i c) ∧ length s.2 = G ∧
                 ∀ j, j < i → G * t + j < length tl →
                      s.2 !! j = Some (tl !! (G * t + j)))
              G 0 (None, replicate G None)) as ([x li] & He & Hx & Hlen & Hli).
  { lia. }
  { simpl. rewrite length_replicate. repeat split. intros j Hj. lia. }
  { intros j [x li] Hj (Hx & Hlen & Hli). cbn [fst snd] in Hx, Hlen, Hli.
    unfold accumulate_step. rewrite to_int_small by lia.
    destruct (Z.ltb_spec (Z.of_nat (G * t) + Z.of_nat j) (Z.of_nat (length tl)))
      as [Hlt | Hge].
    - destruct (lookup_lt_is_Some_2 tl (G * t + j)) as [v Hv]; [lia |].
      rewrite (load_nat inputs _ (G * t + j)) by lia.
      rewrite Hin, Hv by lia. cbn [fmap option_fmap option_map mbind option_bind as_input].
      rewrite (store_nat li _ j) by lia. cbn [mbind option_bind].
      assert (c !! j = Some v) as Hcj.
      { unfold c. by rewrite chunk_lookup by lia. }
      rewrite (take_S_r _ _ _ Hcj), slice_sum_snoc, <- Hx.
      destruct (Z.eqb_spec (Z.of_nat j) 0) as [Hj0 | Hj0].
      + assert (j = 0) as -> by lia. rewrite take_0 in Hx. cbn [slice_sum] in Hx.
        subst x. eexists. split; [done |]. cbn [fst snd]. split; [done |].
        split; [by rewrite length_insert |].
        intros j Hj' _. assert (j = 0) as -> by lia.
        rewrite list_lookup_insert_eq by lia. by rewrite Hv.
      + destruct (slice_sum_is_Some (take j c)) as [y Hy].
        { intros Hnil. apply (f_equal length) in Hnil.
          rewrite length_take in Hnil. apply lookup_lt_Some in Hcj.
          cbn [length] in Hnil. lia. }
        rewrite Hy in Hx. subst x. cbn [mbind option_bind].
        eexists. split; [done |]. cbn [fst snd]. split; [done |].
        split; [by rewrite length_insert |].
        intros j' Hj' Hp. destruct (decide (j' = j)) as [-> | Hne].
        * rewrite list_lookup_insert_eq by lia. by rewrite Hv.
        * rewrite list_lookup_insert_ne by done. apply Hli; lia.
    - exists (x, li). split; [done |]. cbn [fst snd].
      assert (length c ≤ j) as Hc.
      { unfold c. rewrite chunk_length. lia. }
      split; [| split].
      + by rewrite Hx, !take_ge by lia.
      + done.
      + intros j' Hj' Hp. apply Hli; lia. }
  cbn [fst snd Nat.add] in He, Hx, Hlen, Hli. exists li.
  split; [| done]. rewrite He. do 2 f_equal. rewrite Hx, take_ge; [done |].
  unfold c. rewrite chunk_length. lia.
Qed.

Lemma accumulate_worker (W G t : nat) (tl : list I) (b : scan_buffer I M) :
  0 < G → (Z.of_nat (W * G) < 2147483648)%Z → t < W → length tl ≤ W * G →
  (∀ j, j < length tl → stage b !! j = inl <$> tl !! j) →
  t < length (sums b) →
  ∃ l, accumulate F G (Z.of_nat (length tl)) t b ()
       = Some ({| sums := match slice_sum F (chunk G tl t) with
                          | Some y => <[t:=ti y]> (sums b)
                          | None => sums b
                          end;
                  stage := stage b |}, l) ∧
    slice_loaded G tl t l.
Proof.
  intros HG Hint Ht Htl Hin Hsums.
  pose proof (slice_bound W G t Ht) as Hsl.
  unfold accumulate. rewrite (to_int_small (Z.of_nat t)) by lia.
  replace (Z.of_nat G * Z.of_nat t)%Z with (Z.of_nat (G * t)) by lia.
  rewrite !to_int_small by lia.
  destruct (accumulate_loop G (stage b) tl t) as (li & -> & Hlen & Hli);
    [lia | done |].
  cbn [mbind option_bind].
  replace (Z.max 0 (Z.min (Z.of_nat G) (Z.of_nat (length tl) - Z.of_nat (G * t))))
    with (Z.of_nat (min G (length tl - G * t))) by lia.
  destruct (decide (G * t < length tl)) as [Hne | He].
  - destruct (slice_nonempty G tl t HG Hne) as [y Hy].
    destruct (Z.eqb_spec (Z.of_nat (min G (length tl - G * t))) 0); [lia |].
    rewrite Hy. cbn [mbind option_bind].
    rewrite (store_nat _ _ t) by done. cbn [mbind option_bind].
    eexists. split; [done |]. by repeat split.
  - rewrite chunk_empty by lia. cbn [slice_sum].
    destruct (Z.eqb_spec (Z.of_nat (min G (length tl - G * t))) 0); [| lia].
    eexists. split; [done |]. by repeat split.
Qed.

Lemma accumulate_phase (W G : nat) (tl : list I) (b : scan_buffer I M) :
  0 < G → (Z.of_nat (W * G) < 2147483648)%Z → length tl ≤ W * G →
  (∀ j, j < length tl → stage b !! j = inl <$> tl !! j) →
  W ≤ length (sums b) →
  ∃ b' ls,
    each_worker (accumulate F G (Z.of_nat (length tl))) 0 b (replicate W ())
    = Some (b', ls) ∧
    stage b' = stage b ∧ length (sums b') = length (sums b) ∧
    (∀ a, sums b' !! a = if decide (a < W ∧ G * a < length tl)
                         then ti <$> slice_sum F (chunk G tl a) else sums b !! a) ∧
    length ls = W ∧
    ∀ t l, ls !! t = Some l → slice_loaded G tl t l.
Proof.
  intros HG Hint Htl Hin Hsums.
  destruct (each_worker_inv (accumulate F G (Z.of_nat (length tl)))
              (λ t b', stage b' = stage b ∧ length (sums b') = length (sums b) ∧
                 ∀ a, sums b' !! a = if decide (a < t ∧ G * a < length tl)
                                     then ti <$> slice_sum F (chunk G tl a)
                                     else sums b !! a)
              (λ t _ l, slice_loaded G tl t l)
              (replicate W ()) 0 b) as (b' & ls & He & (Hst & Hlen & Hs) & Hl & HR).
  { split; [done |]. split; [done |]. intros a. case_decide; [lia | done]. }
  { intros t [] b0 Ht (Hst0 & Hlen0 & Hs0). cbn [Nat.add] in Hs0 |- *.
    apply lookup_replicate_1 in Ht as [_ Ht].
    destruct (accumulate_worker W G t tl b0) as (l & -> & Hl); [done.. | | lia |].
    { intros j Hj. rewrite Hst0. by apply Hin. }
    eexists _, l. split; [done |]. split; [| done]. cbn [stage sums].
    split; [done |].
    destruct (decide (G * t < length tl)) as [Hne | Hemp].
    - destruct (slice_nonempty G tl t HG Hne) as [y Hy]. rewrite Hy.
      split; [by rewrite length_insert |].
      intros a. destruct (decide (a = t)) as [-> | Hat].
      + rewrite list_lookup_insert_eq by lia. case_decide; [by rewrite Hy | lia].
      + rewrite list_lookup_insert_ne by done. rewrite Hs0.
        repeat case_decide; done || lia.
    - rewrite chunk_empty by lia. cbn [slice_sum]. split; [done |].
      intros a. rewrite Hs0. repeat case_decide; try done; try lia.
      assert (a = t) as -> by lia. lia. }
  rewrite length_replicate in Hl, Hs. cbn [Nat.add] in Hs, HR.
  exists b', ls. do 5 (split; [done |]).
  intros t l Hl'. eapply (HR t ()); [| done].
  apply lookup_replicate_2. apply lookup_lt_Some in Hl'. lia.
Qed.

Lemma slice_position (G t a : nat) :
  G * t ≤ a < G * t + G → a `div` G = t ∧ a `mod` G = a - G * t.
Proof.
  intros Ha. assert (a = G * t + (a - G * t)) as Hd by lia.
  split.
  - symmetry. apply (Nat.div_unique a G t (a - G * t)); lia.
  - symmetry. apply (Nat.mod_unique a G t (a - G * t)); lia.
Qed.

(** The scan loop of worker [t], which starts from [xs]. *)
Lemma local_scan_loop (inclusive : bool) (G t : nat) (tl : list I) (xs : I)
    (li : list (option I)) (x0 : option I) (results : list (I + M)) :
  (Z.of_nat (G * t + G) < 2147483648)%Z →
  length li = G →
  (∀ j, j < G → G * t + j < length tl → li !! j = Some (tl !! (G * t + j))) →
  length tl ≤ length results →
  (G * t < length tl → x0 = Some xs) →
  ∃ x' results',
    for_range 0 G
      (local_scan_step F inclusive li (Z.of_nat (length tl)) (Z.of_nat (G * t)))
      (x0, results) = Some (x', results') ∧
    length results' = length results ∧
    ∀ a, results' !! a =
         if decide (G * t ≤ a < G * t + G ∧ a < length tl)
         then Some (inr (ti (fold_left bx
                               (take (if inclusive then S (a - G * t) else a - G * t)
                                     (chunk G tl t)) xs)))
         else results !! a.
Proof.
  intros Hint Hlen Hli Hres Hx0. set (c := chunk G tl t).
  destruct (for_range_inv
              (local_scan_step F inclusive li (Z.of_nat (length tl)) (Z.of_nat (G * t)))
              (λ i s, (G * t < length tl → s.1 = Some (fold_left bx (take i c) xs)) ∧
                 length s.2 = length results ∧
                 ∀ a, s.2 !! a =
                      if decide (G * t ≤ a < G * t + i ∧ a < length tl)
                      then Some (inr (ti (fold_left bx
                                   (take (if inclusive then S (a - G * t) else a - G * t) c)
                                   xs)))
                      else results !! a)
              G 0 (x0, results)) as ([x' results'] & He & Hx & Hlen' & Hr).
  { lia. }
  { cbn [fst snd]. rewrite take_0. split; [done |]. split; [done |].
    intros a. case_decide; [lia | done]. }
  { intros j [x res] Hj (Hx & Hlen' & Hr). cbn [fst snd] in Hx, Hlen', Hr.
    unfold local_scan_step. rewrite to_int_small by lia.
    destruct (Z.ltb_spec (Z.of_nat (G * t) + Z.of_nat j) (Z.of_nat (length tl)))
      as [Hlt | Hge].
    - destruct (lookup_lt_is_Some_2 tl (G * t + j)) as [e He]; [lia |].
      specialize (Hx ltac:(lia)). subst x.
      rewrite (load_nat li _ j) by done. rewrite Hli, He by lia.
      cbn [mjoin option_join mbind option_bind].
      assert (c !! j = Some e) as Hcj.
      { unfold c. by rewrite chunk_lookup by lia. }
      assert (fold_left bx (take (S j) c) xs = bx (fold_left bx (take j c) xs) e)
        as Hstep by (by rewrite (take_S_r _ _ _ Hcj), fold_left_app).
      destruct inclusive; cbn [negb mbind option_bind].
      + rewrite (store_nat res _ (G * t + j)) by lia. cbn [mbind option_bind].
        eexists. split; [done |]. cbn [fst snd]. split; [| split].
        * intros _. by rewrite Hstep.
        * by rewrite length_insert.
        * intros a. destruct (decide (a = G * t + j)) as [-> | Hne].
          -- rewrite list_lookup_insert_eq by lia. case_decide; [| lia].
             replace (G * t + j - G * t) with j by lia. by rewrite Hstep.
          -- rewrite list_lookup_insert_ne by done. rewrite Hr.
             repeat case_decide; done || lia.
      + rewrite (store_nat res _ (G * t + j)) by lia. cbn [mbind option_bind].
        eexists. split; [done |]. cbn [fst snd]. split; [| split].
        * intros _. by rewrite Hstep.
        * by rewrite length_insert.
        * intros a. destruct (decide (a = G * t + j)) as [-> | Hne].
          -- rewrite list_lookup_insert_eq by lia. case_decide; [| lia].
             by replace (G * t + j - G * t) with j by lia.
          -- rewrite list_lookup_insert_ne by done. rewrite Hr.
             repeat case_decide; done || lia.
    - exists (x, res). split; [done |]. cbn [fst snd]. split; [| split].
      + intros Hne. rewrite Hx by done.
        assert (length c ≤ j) as Hc by (unfold c; rewrite chunk_length; lia).
        by rewrite !take_ge by lia.
      + done.
      + intros a. rewrite Hr. repeat case_decide; done || lia. }
  cbn [fst snd Nat.add] in He, Hx, Hlen', Hr. by exists x', results'.
Qed.

Lemma local_scan_worker (inclusive : bool) (W G t : nat) (tl : list I) (e : M)
    (b : scan_buffer I M) (l : worker_locals I) :
  0 < G → (Z.of_nat (W * G) < 2147483648)%Z → t < W →
  slice_loaded G tl t l →
  length tl ≤ length (stage b) →
  (G * t < length tl → sums b !! t = Some e) →
  ∃ results,
    local_scan F G inclusive (Z.of_nat (length tl)) t b l
    = Some ({| sums := sums b; stage := results |}, ()) ∧
    length results = length (stage b) ∧
    ∀ a, results !! a =
         if decide (G * t ≤ a < G * t + G ∧ a < length tl)
         then Some (inr (ti (fold_left bx
                               (take (if inclusive then S (a - G * t) else a - G * t)
                                     (chunk G tl t)) (to_input F e))))
         else stage b !! a.
Proof.
  intros HG Hint Ht (Hoff & Hsize & Hlen & Hli) Hst Hsum.
  pose proof (slice_bound W G t Ht) as Hsl.
  unfold local_scan. rewrite Hoff, Hsize. rewrite to_int_small by lia.
  set (x0 := (if (Z.of_nat (min G (length tl - G * t)) =? 0)%Z
              then Some (local_x l)
              else load (sums b) (Z.of_nat t) ≫= λ v, Some (Some (to_input F v)))).
  assert (∃ x, x0 = Some x ∧ (G * t < length tl → x = Some (to_input F e)))
    as (x & -> & Hx).
  { unfold x0. destruct (Z.eqb_spec (Z.of_nat (min G (length tl - G * t))) 0).
    - eexists. split; [done |]. lia.
    - rewrite (load_nat _ _ t) by done. rewrite Hsum by lia.
      eexists. split; [done |]. done. }
  cbn [mbind option_bind].
  destruct (local_scan_loop inclusive G t tl (to_input F e) (local_inputs l) x (stage b))
    as (x' & results & -> & Hlen' & Hr); [lia | done.. |].
  cbn [mbind option_bind]. by exists results.
Qed.

Lemma local_scan_phase (inclusive : bool) (W G : nat) (tl : list I) (seed : nat → M)
    (b : scan_buffer I M) (ls : list (worker_locals I)) :
  0 < G → (Z.of_nat (W * G) < 2147483648)%Z → length tl ≤ W * G →
  length ls = W →
  (∀ t l, ls !! t = Some l → slice_loaded G tl t l) →
  length tl ≤ length (stage b) →
  (∀ t, t < W → G * t < length tl → sums b !! t = Some (seed t)) →
  ∃ b' us,
    each_worker (local_scan F G inclusive (Z.of_nat (length tl))) 0 b ls
    = Some (b', us) ∧
    sums b' = sums b ∧ length (stage b') = length (stage b) ∧
    ∀ a, stage b' !! a =
         if decide (a < length tl)
         then Some (inr (ti (fold_left bx
                               (take (if inclusive then S (a `mod` G) else a `mod` G)
                                     (chunk G tl (a `div` G)))
                               (to_input F (seed (a `div` G))))))
         else stage b !! a.
Proof.
  intros HG Hint Htl Hls Hloaded Hst Hsum.
  destruct (each_worker_inv (local_scan F G inclusive (Z.of_nat (length tl)))
              (λ t b', sums b' = sums b ∧ length (stage b') = length (stage b) ∧
                 ∀ a, stage b' !! a =
                      if decide (a < G * t ∧ a < length tl)
                      then Some (inr (ti (fold_left bx
                                   (take (if inclusive then S (a `mod` G) else a `mod` G)
                                         (chunk G tl (a `div` G)))
                                   (to_input F (seed (a `div` G))))))
                      else stage b !! a)
              (λ _ _ _, True)
              ls 0 b) as (b' & us & He & (Hs & Hlen & Hr) & _ & _).
  { split; [done |]. split; [done |]. intros a. case_decide; [lia | done]. }
  { intros t l b0 Hl (Hs0 & Hlen0 & Hr0). cbn [Nat.add] in Hr0 |- *.
    assert (t < W) as Ht by (apply lookup_lt_Some in Hl; lia).
    destruct (local_scan_worker inclusive W G t tl (seed t) b0 l)
      as (results & -> & Hlen' & Hr'); [done.. | by eapply Hloaded | lia | |].
    { intros Hne. rewrite Hs0. by apply Hsum. }
    eexists _, (). split; [done |]. split; [| done]. cbn [sums stage].
    split; [done |]. split; [lia |].
    intros a. rewrite Hr', Hr0.
    destruct (decide (G * t ≤ a < G * t + G)) as [Ha | Ha].
    - destruct (slice_position G t a Ha) as [-> ->].
      repeat case_decide; done || lia.
    - repeat case_decide; done || lia. }
  cbn [Nat.add] in Hr. rewrite Hls in Hr.
  exists b', us. do 3 (split; [done |]).
  intros a. rewrite Hr. repeat case_decide; done || nia.
Qed.

Context `{!Assoc (=) (binary_op F)}.

(** What the small scan leaves for worker [t] is the seed of worker [t]. *)
Lemma worker_seed_sums (G : nat) (tl : list I) (v : list M) (c : M) (t : nat) :
  t ≤ length v →
  (∀ a, a < t → v !! a = ti <$> slice_sum F (chunk G tl a)) →
  foldl (take t v) c = worker_seed F G tl c t.
Proof.
  induction t as [|t IH]; intros Ht Hv.
  - by rewrite take_0.
  - destruct (lookup_lt_is_Some_2 v t) as [y Hy]; [lia |].
    rewrite (take_S_r _ _ _ Hy), fold_left_app. cbn [fold_left worker_seed].
    rewrite IH by (lia || (intros; apply Hv; lia)).
    rewrite Hv in Hy by lia.
    destruct (slice_sum F (chunk G tl t)) as [y'|]; [| done].
    cbn [fmap option_fmap option_map] in Hy. by injection Hy as <-.
Qed.

(** One pass of the tile loop from [first = f] and [result = r], for any
    instantiation: it writes [tile_output] to the destination, and after a
    full tile the new [carry_in] is the seed of a worker past the last. *)
Lemma tile_spec_general (inclusive : bool) (W G : nat) (src : list I)
    (st : loop_state I M) (f r : nat) :
  0 < W → 0 < G → (Z.of_nat (W * G) < 2147483648)%Z →
  (Z.of_nat (length src) < 2147483648)%Z →
  first st = Z.of_nat f → result st = Z.of_nat r → f < length src →
  W + W ≤ length (sums (buffer st)) → W * G ≤ length (stage (buffer st)) →
  r + min (W * G) (length src - f) ≤ length (dest st) →
  ∃ st',
    tile F W G inclusive src (Z.of_nat (length src)) st = Some st' ∧
    first st' = Z.of_nat (f + W * G) ∧ result st' = Z.of_nat (r + W * G) ∧
    length (sums (buffer st')) = length (sums (buffer st)) ∧
    length (stage (buffer st')) = length (stage (buffer st)) ∧
    length (dest st') = length (dest st) ∧
    (∀ a, dest st' !! a =
          if decide (r ≤ a < r + min (W * G) (length src - f))
          then Some (tile_output F G inclusive (carry_in st)
                       (take (W * G) (drop f src)) (a - r))
          else dest st !! a) ∧
    (W * G ≤ length src - f →
     carry_in st' = worker_seed F G (take (W * G) (drop f src)) (carry_in st) W).
Proof.
  intros HW HG Hint Hsrc Hfirst Hresult Hf Hsums Hstage Hdest.
  assert (Z.of_nat W ≤ 2147483648)%Z as HWint by nia.
  set (p := min (W * G) (length src - f)) in *.
  set (tl := take (W * G) (drop f src)).
  assert (length tl = p) as Htl by (unfold tl; rewrite length_take, length_drop; lia).
  unfold tile. rewrite Hfirst, Hresult.
  replace (Z.of_nat W * Z.of_nat G)%Z with (Z.of_nat (W * G)) by lia.
  rewrite !to_int_small by lia.
  replace (Z.min (Z.of_nat (W * G)) (Z.of_nat (length src) - Z.of_nat f))
    with (Z.of_nat (length tl)) by lia.
  destruct (copy_n_spec (λ v : I, Some (@inl I M v)) src f (length tl)
              (stage (buffer st)) 0)
    as (inputs & He & Hlen_in & Hin); [| lia |].
  { intros j Hj. destruct (lookup_lt_is_Some_2 src j) as [v ->]; [lia | done]. }
  change (Z.of_nat 0) with 0%Z in He. rewrite He. clear He. cbn [mbind option_bind].
  destruct (accumulate_phase W G tl {| sums := sums (buffer st); stage := inputs |})
    as (b1 & ls & -> & Hst1 & Hlen1 & Hs1 & Hls & Hloaded);
    [done | done | lia | | cbn; lia |].
  { intros j Hj. cbn [stage]. rewrite Hin. case_decide; [| lia].
    unfold tl. rewrite lookup_take_lt, lookup_drop by lia.
    replace (f + (j - 0)) with (f + j) by lia. by destruct (src !! (f + j)). }
  cbn [mbind option_bind sums stage] in *.
  destruct (small_scan_correct op W 0 W (sums b1) (carry_in st))
    as (sums2 & He & Hlen2 & Hs2 & _); [done | done | lia | lia | lia |].
  change (Z.of_nat 0) with 0%Z in He. rewrite He. clear He. cbn [mbind option_bind].
  rewrite drop_0 in Hs2 |- *.
  destruct (local_scan_phase inclusive W G tl (worker_seed F G tl (carry_in st))
              {| sums := sums2; stage := stage b1 |} ls)
    as (b3 & us & -> & Hs3 & Hlen3 & Hr3); [done | done | lia | done | done | | |].
  { cbn [stage]. rewrite Hst1. lia. }
  { intros t Ht Hne. cbn [sums]. rewrite (Hs2 t Ht : sums2 !! t = _). f_equal.
    apply worker_seed_sums; [lia |].
    intros a Ha. rewrite Hs1. case_decide; [done | nia]. }
  cbn [mbind option_bind sums stage] in *.
  destruct (copy_n_spec as_result (stage b3) 0 (length tl) (dest st) r)
    as (dest' & He & Hlen_d & Hd); [| lia |].
  { intros j Hj. rewrite Hr3. case_decide; [done | lia]. }
  change (Z.of_nat 0) with 0%Z in He. rewrite He. clear He. cbn [mbind option_bind].
  eexists. split; [done |].
  cbn [first result buffer dest carry_in].
  split; [lia |]. split; [lia |]. split; [by rewrite Hs3, Hlen2 |].
  split; [by rewrite Hlen3, Hst1 |]. split; [done |]. split.
  - intros a. rewrite Hd, Htl. case_decide; [| done].
    rewrite Nat.add_0_l, Hr3. by case_decide; [| lia].
  - intros Hfull. apply worker_seed_sums; [lia |].
    intros a Ha. rewrite Hs1. case_decide; [done | nia].
Qed.

(** *** When the conversions lose nothing *)

Lemma fold_x_exact (g : I → I → I) (l : list I) :
  (∀ a b, ti (g a b) = op (ti a) (ti b)) →
  ∀ x, ti (fold_left g l x) = foldl (ti <$> l) (ti x).
Proof.
  intros Hop. induction l as [|a l IH]; intros x; simpl; [done |].
  by rewrite IH, Hop.
Qed.

Lemma slice_sum_exact (l : list I) :
  exact_conversions F → ti <$> slice_sum F l = fold op (ti <$> l).
Proof.
  intros (_ & _ & Hcond & Hop). destruct l as [|a l]; simpl; [done |].
  by rewrite fold_x_exact, Hcond.
Qed.

Lemma chunk_fmap {A B : Type} (h : A → B) (G : nat) (tl : list A) (t : nat) :
  chunk G (h <$> tl) t = h <$> chunk G tl t.
Proof. unfold chunk. by rewrite fmap_take, fmap_drop. Qed.

Lemma worker_seed_exact (G : nat) (tl : list I) (c : M) (t : nat) :
  exact_conversions F →
  worker_seed F G tl c t = foldl (take (G * t) (ti <$> tl)) c.
Proof.
  intros Hexact. induction t as [|t IH].
  - by rewrite Nat.mul_0_r, take_0.
  - cbn [worker_seed]. rewrite IH.
    replace (G * S t) with (G * t + G) by lia.
    rewrite <- (take_take_drop (ti <$> tl) (G * t) G), fold_left_app.
    change (take G (drop (G * t) (ti <$> tl))) with (chunk G (ti <$> tl) t).
    pose proof (slice_sum_exact (chunk G tl t) Hexact) as Hs.
    rewrite <- chunk_fmap in Hs.
    destruct (slice_sum F (chunk G tl t)) as [y|];
      cbn [fmap option_fmap option_map] in Hs.
    + symmetry. by apply foldl_fold.
    + destruct (chunk G (ti <$> tl) t); [done | discriminate].
Qed.

Lemma tile_output_exact (G : nat) (inclusive : bool) (c : M) (tl : list I) (a : nat) :
  exact_conversions F → 0 < G →
  tile_output F G inclusive c tl a = prefix op inclusive c (ti <$> tl) a.
Proof.
  intros Hexact HG. unfold tile_output, prefix.
  rewrite worker_seed_exact by done.
  destruct Hexact as (Hback & Hop & _). rewrite fold_x_exact, Hback by done.
  pose proof (Nat.div_mod_eq a G) as Ha.
  pose proof (Nat.mod_upper_bound a G ltac:(lia)) as Hm.
  set (t := a `div` G) in *. set (j := a `mod` G) in *.
  rewrite <- fold_left_app. f_equal.
  rewrite fmap_take, <- chunk_fmap. unfold chunk.
  rewrite take_take, Nat.min_l by (destruct inclusive; lia).
  rewrite take_take_drop. f_equal. destruct inclusive; lia.
Qed.

(** One pass of the tile loop from [first = f] and [result = r], when the
    conversions lose nothing: it writes the prefixes of the tile, seeded with
    [carry_in], to the destination, and after a full tile the new [carry_in]
    is the fold of the old one and the tile. *)
Lemma tile_spec (inclusive : bool) (W G : nat) (src : list I) (st : loop_state I M)
    (f r : nat) :
  exact_conversions F →
  0 < W → 0 < G → (Z.of_nat (W * G) < 2147483648)%Z →
  (Z.of_nat (length src) < 2147483648)%Z →
  first st = Z.of_nat f → result st = Z.of_nat r → f < length src →
  W + W ≤ length (sums (buffer st)) → W * G ≤ length (stage (buffer st)) →
  r + min (W * G) (length src - f) ≤ length (dest st) →
  ∃ st',
    tile F W G inclusive src (Z.of_nat (length src)) st = Some st' ∧
    first st' = Z.of_nat (f + W * G) ∧ result st' = Z.of_nat (r + W * G) ∧
    length (sums (buffer st')) = length (sums (buffer st)) ∧
    length (stage (buffer st')) = length (stage (buffer st)) ∧
    length (dest st') = length (dest st) ∧
    (∀ a, dest st' !! a =
          if decide (r ≤ a < r + min (W * G) (length src - f))
          then Some (prefix op inclusive (carry_in st) (ti <$> drop f src) (a - r))
          else dest st !! a) ∧
    (W * G ≤ length src - f →
     carry_in st' = foldl (take (W * G) (ti <$> drop f src)) (carry_in st)).
Proof.
  intros Hexact HW HG Hint Hsrc Hfirst Hresult Hf Hsums Hstage Hdest.
  destruct (tile_spec_general inclusive W G src st f r)
    as (st' & He & Hfirst' & Hresult' & Hsums' & Hstage' & Hlen' & Hd & Hcarry);
    [done.. |].
  exists st'. do 6 (split; [done |]). split.
  - intros a. rewrite Hd. case_decide; [| done]. f_equal.
    rewrite tile_output_exact by done. rewrite fmap_take.
    apply prefix_take. lia.
  - intros Hfull. rewrite Hcarry by done.
    rewrite worker_seed_exact by done. rewrite fmap_take, take_take.
    f_equal. f_equal. lia.
Qed.

End tile.

(** ** The tile loop *)

Section sequential.

Context {T : Type}.
Variable binary_op : T → T → T.




End sequential.

Section tile_loop.

Context {I M : Type}.
Variable F : instantiation I M.
Context `{!Assoc (=) (binary_op F)}.

Local Abbreviation op := (binary_op F).
Local Abbreviation ti := (to_intermediate F).
Local Abbreviation foldl := (fold_left (binary_op F)).

Lemma tile_loop_spec (inclusive : bool) (W G : nat) (src : list I) :
  exact_conversions F →
  0 < W → 0 < G → (Z.of_nat (W * G) < 2147483648)%Z →
  (Z.of_nat (length src) < 2147483648)%Z →
  ∀ (fuel : nat) (st : loop_state I M) (f r : nat),
  first st = Z.of_nat f → result st = Z.of_nat r →
  length src - f ≤ fuel →
  W + W ≤ length (sums (buffer st)) → W * G ≤ length (stage (buffer st)) →
  (f < length src → r + (length src - f) ≤ length (dest st)) →
  ∃ st',
    tile_loop F W G fuel inclusive src (Z.of_nat (length src)) st = Some st' ∧
    length (dest st') = length (dest st) ∧
    ∀ a, dest st' !! a =
         if decide (r ≤ a < r + (length src - f))
         then Some (prefix op inclusive (carry_in st) (ti <$> drop f src) (a - r))
         else dest st !! a.
Proof.
  intros Hexact HW HG Hint Hsrc fuel.
  assert (0 < W * G) as HWG by nia.
  induction fuel as [|fuel IH]; intros st f r Hfirst Hresult Hfuel Hsums Hstage Hdest;
    cbn [tile_loop]; rewrite Hfirst;
    destruct (Z.ltb_spec (Z.of_nat f) (Z.of_nat (length src))) as [Hlt | Hge].
  - lia.
  - exists st. split; [done |]. split; [done |]. intros a. case_decide; [lia | done].
  - specialize (Hdest ltac:(lia)).
    destruct (tile_spec F inclusive W G src st f r)
      as (st1 & -> & Hfirst1 & Hresult1 & Hsums1 & Hstage1 & Hlen1 & Hd1 & Hcarry);
      [done.. | lia | done | done | lia |].
    cbn [mbind option_bind].
    destruct (IH st1 (f + W * G) (r + W * G)) as (st' & -> & Hlen' & Hd');
      [done | done | lia | lia | lia | lia |].
    exists st'. split; [done |]. split; [lia |].
    intros a. rewrite Hd', Hd1.
    destruct (decide (r + W * G ≤ a < r + W * G + (length src - (f + W * G)))) as [Ha | Ha].
    + case_decide; [| lia].
      rewrite Hcarry by lia.
      rewrite <- (drop_drop src (W * G) f), (fmap_drop _ (W * G) (drop f src)).
      rewrite prefix_drop.
      do 2 f_equal. lia.
    + repeat case_decide; done || lia.
  - exists st. split; [done |]. split; [done |]. intros a. case_decide; [lia | done].
Qed.


(** [scan_with_buffer] returns, and its destination is the old one with the
    prefixes written over the [length src] slots from [r]. *)
Lemma scan_with_buffer_lookup (inclusive : bool) (W G : nat) (src : list I)
    (dst : list M) (r : nat) (init : M) (b : scan_buffer I M) :
  exact_conversions F →
  representable W G (length src) → capacity W G b →
  r + length src ≤ length dst →
  ∃ st,
    scan_with_buffer F W G inclusive src dst (Z.of_nat r) init b = Some st ∧
    length (dest st) = length dst ∧
    ∀ a, dest st !! a = if decide (r ≤ a < r + length src)
                        then Some (prefix op inclusive init (ti <$> src) (a - r))
                        else dst !! a.
Proof.
  intros Hexact (HW & HG & Hint & Hsrc) [Hsums Hstage] Hdst.
  unfold scan_with_buffer.
  destruct (tile_loop_spec inclusive W G src Hexact HW HG Hint Hsrc
              (length src) (entry dst r init b) 0 r) as (st & He & Hlen & Hd);
    [done | done | lia | done | done | cbn; lia |].
  exists st. split; [done |]. split; [done |].
  intros a. rewrite Hd. rewrite Nat.sub_0_r, drop_0. done.
Qed.


(** For any instantiation, the destination that the loop leaves does not
    depend on what the scratch buffer holds. *)
Lemma tile_loop_buffers (inclusive : bool) (W G : nat) (src : list I) :
  0 < W → 0 < G → (Z.of_nat (W * G) < 2147483648)%Z →
  (Z.of_nat (length src) < 2147483648)%Z →
  ∀ (fuel : nat) (st1 st2 : loop_state I M) (f r : nat),
  first st1 = Z.of_nat f → first st2 = Z.of_nat f →
  result st1 = Z.of_nat r → result st2 = Z.of_nat r →
  dest st1 = dest st2 →
  (f < length src → carry_in st1 = carry_in st2) →
  length src - f ≤ fuel →
  capacity W G (buffer st1) → capacity W G (buffer st2) →
  (f < length src → r + (length src - f) ≤ length (dest st1)) →
  ∃ st1' st2',
    tile_loop F W G fuel inclusive src (Z.of_nat (length src)) st1 = Some st1' ∧
    tile_loop F W G fuel inclusive src (Z.of_nat (length src)) st2 = Some st2' ∧
    dest st1' = dest st2'.
Proof.
  intros HW HG Hint Hsrc fuel.
  assert (0 < W * G) as HWG by nia.
  induction fuel as [|fuel IH];
    intros st1 st2 f r Hf1 Hf2 Hr1 Hr2 Hdest Hcarry Hfuel [Hs1 Hg1] [Hs2 Hg2] Hroom;
    cbn [tile_loop]; rewrite Hf1, Hf2;
    destruct (Z.ltb_spec (Z.of_nat f) (Z.of_nat (length src))) as [Hlt | Hge].
  - lia.
  - by exists st1, st2.
  - specialize (Hroom ltac:(lia)). specialize (Hcarry ltac:(lia)).
    destruct (tile_spec_general F inclusive W G src st1 f r)
      as (st1' & -> & Hf1' & Hr1' & Hs1' & Hg1' & Hlen1 & Hd1 & Hc1);
      [done.. | lia | done | done | lia |].
    destruct (tile_spec_general F inclusive W G src st2 f r)
      as (st2' & -> & Hf2' & Hr2' & Hs2' & Hg2' & Hlen2 & Hd2 & Hc2);
      [done.. | lia | done | done | rewrite <- Hdest; lia |].
    cbn [mbind option_bind].
    apply (IH st1' st2' (f + W * G) (r + W * G)); try done.
    + apply list_eq. intros a. by rewrite Hd1, Hd2, Hcarry, Hdest.
    + intros Hmore. rewrite Hc1, Hc2 by lia. by rewrite Hcarry.
    + lia.
    + split; lia.
    + split; lia.
    + lia.
  - by exists st1, st2.
Qed.

Lemma scan_with_buffer_buffers (inclusive : bool) (W G : nat) (src : list I)
    (dst : list M) (r : nat) (init : M) (b b' : scan_buffer I M) :
  representable W G (length src) → capacity W G b → capacity W G b' →
  r + length src ≤ length dst →
  ∃ st st',
    scan_with_buffer F W G inclusive src dst (Z.of_nat r) init b = Some st ∧
    scan_with_buffer F W G inclusive src dst (Z.of_nat r) init b' = Some st' ∧
    dest st = dest st'.
Proof.
  intros (HW & HG & Hint & Hsrc) Hcap Hcap' Hdst. unfold scan_with_buffer.
  apply (tile_loop_buffers inclusive W G src HW HG Hint Hsrc (length src) _ _ 0 r);
    try done; cbn; lia.
Qed.

End tile_loop.

(** ** The entry points and the properties of the scans *)

Section dispatch.

Context {I M : Type}.
Variable F : instantiation I M.

Lemma inclusive_scan_dispatch (W G arch : nat) (a : allocation I M) (src : list I)
    (dst : list M) (r : Z) (init : M) :
  inclusive_scan F W G arch a src dst r init
  = dest <$> scan_with_buffer F W G true src dst r init (block a).
Proof. unfold inclusive_scan, on_chip_cast. by destruct (200 <=? arch), (is_shared a). Qed.

Lemma exclusive_scan_dispatch (W G arch : nat) (a : allocation I M) (src : list I)
    (dst : list M) (r : Z) (init : M) :
  exclusive_scan F W G arch a src dst r init
  = dest <$> scan_with_buffer F W G false src dst r init (block a).
Proof. unfold exclusive_scan, on_chip_cast. by destruct (200 <=? arch), (is_shared a). Qed.

End dispatch.

Lemma write_first_phase {T : Type} (W : nat) (dst : list T) (r : nat) (x0 : T) :
  0 < W → r < length dst →
  ∃ us, each_worker (write_first (Z.of_nat r) x0) 0 dst (replicate W ())
        = Some (<[r:=x0]> dst, us).
Proof.
  intros HW Hr.
  destruct (each_worker_inv (write_first (Z.of_nat r) x0)
              (λ k s, s = if decide (k = 0) then dst else <[r:=x0]> dst)
              (λ _ _ _, True)
              (replicate W ()) 0 dst) as (s' & us & He & HI & _).
  { done. }
  { intros k p s0 Hk Hs0. cbn [Nat.add] in Hs0 |- *. subst s0.
    unfold write_first. destruct k as [|k]; cbn -[store].
    - rewrite (store_nat dst _ r) by done. cbn. by eexists _, _.
    - by eexists _, _. }
  cbn [Nat.add] in HI. rewrite length_replicate in HI.
  destruct (decide (W = 0)); [lia |]. subst s'. by exists us.
Qed.

Lemma same_type_exact {T : Type} (f : T → T → T) : exact_conversions (same_type f).
Proof. by repeat split. Qed.

Section prefixes.

Context {T : Type}.
Variable binary_op : T → T → T.
Context `{!Assoc (=) binary_op}.



End prefixes.

Section properties.

Context {I M : Type}.
Variable F : instantiation I M.
Context `{!Assoc (=) (binary_op F)}.

Local Abbreviation op := (binary_op F).
Local Abbreviation ti := (to_intermediate F).
Local Abbreviation foldl := (fold_left (binary_op F)).







(** C9.  Placement invariance: with the scratch buffer placed in on-chip
    memory or in the fallback pool, [inclusive_scan] and [exclusive_scan] run
    [scan_with_buffer] on the same data and give the same result. *)
Theorem placement_invariance (W G arch : nat) (b : scan_buffer I M)
    (src : list I) (dst : list M) (r : Z) (init : M) :
  inclusive_scan F W G arch {| is_shared := true; block := b |} src dst r init
  = inclusive_scan F W G arch {| is_shared := false; block := b |} src dst r init ∧
  exclusive_scan F W G arch {| is_shared := true; block := b |} src dst r init
  = exclusive_scan F W G arch {| is_shared := false; block := b |} src dst r init.
Proof. by rewrite !inclusive_scan_dispatch, !exclusive_scan_dispatch. Qed.

(** X13.  The two placements are two regions of memory, each with contents
    of its own: for every instantiation with an associative [binary_op],
    whatever its conversions, what the scratch buffer holds on entry, where
    it is placed and the value of [__CUDA_ARCH__] do not reach the
    destination. *)
Lemma scratch_contents_do_not_matter (W G arch arch' : nat) (a a' : allocation I M)
    (src : list I) (dst : list M) (r : nat) (init : M) :
  representable W G (length src) →
  capacity W G (block a) → capacity W G (block a') →
  r + length src ≤ length dst →
  inclusive_scan F W G arch a src dst (Z.of_nat r) init
  = inclusive_scan F W G arch' a' src dst (Z.of_nat r) init ∧
  exclusive_scan F W G arch a src dst (Z.of_nat r) init
  = exclusive_scan F W G arch' a' src dst (Z.of_nat r) init.
Proof.
  intros Hrep Hcap Hcap' Hdst.
  rewrite !inclusive_scan_dispatch, !exclusive_scan_dispatch.
  destruct (scan_with_buffer_buffers F true W G src dst r init (block a) (block a'))
    as (st1 & st2 & -> & -> & H1); [done.. |].
  destruct (scan_with_buffer_buffers F false W G src dst r init (block a) (block a'))
    as (st3 & st4 & -> & -> & H2); [done.. |].
  cbn. by rewrite H1, H2.
Qed.

(** C10.  On a partial final tile, of [length src - f < W * G] elements,
    for every instantiation with an associative [binary_op], whatever its
    conversions: in the accumulate phase, run on a staging area that holds
    the elements of the tile, a worker [t] whose slice is empty
    ([G * t >= partition_size]) leaves its slot [sums[t]] as it found it; and
    whatever the scratch buffers of two runs hold on entry, stale sums
    included, the pass writes the same destination in both, and the loop ends
    after it, so that the total of the pass is not used. *)
Theorem stale_sums_stay_out_of_the_output (inclusive : bool) (W G : nat)
    (src : list I) (st1 st2 : loop_state I M) (f r : nat) :
  representable W G (length src) →
  capacity W G (buffer st1) → capacity W G (buffer st2) →
  first st1 = Z.of_nat f → first st2 = Z.of_nat f →
  result st1 = Z.of_nat r → result st2 = Z.of_nat r →
  carry_in st1 = carry_in st2 → dest st1 = dest st2 →
  f < length src → length src - f < W * G →
  r + (length src - f) ≤ length (dest st1) →
  (∀ (b : scan_buffer I M) (tl : list I),
     capacity W G b → length tl = length src - f →
     (∀ j, j < length tl → stage b !! j = inl <$> tl !! j) →
     ∃ b' ls,
       each_worker (accumulate F G (Z.of_nat (length src - f))) 0 b
         (replicate W ()) = Some (b', ls) ∧
       ∀ t, length src - f ≤ G * t → sums b' !! t = sums b !! t) ∧
  ∃ st1' st2',
    tile F W G inclusive src (Z.of_nat (length src)) st1 = Some st1' ∧
    tile F W G inclusive src (Z.of_nat (length src)) st2 = Some st2' ∧
    dest st1' = dest st2' ∧
    (Z.of_nat (length src) ≤ first st1')%Z ∧ (Z.of_nat (length src) ≤ first st2')%Z.
Proof.
  intros Hrep [Hsums1 Hstage1] [Hsums2 Hstage2] Hf1 Hf2 Hr1 Hr2 Hcarry Hdest
    Hf Hpartial Hroom.
  pose proof Hrep as (HW & HG & Hint & Hsrc). split.
  - intros b tl [Hsums Hstage] Htl Hin.
    rewrite <- Htl.
    destruct (accumulate_phase F W G tl b)
      as (b' & ls & He & _ & _ & Hs & _); [done | done | lia | done | lia |].
    exists b', ls. split; [done |]. intros t Ht. rewrite Hs.
    case_decide; [lia | done].
  - destruct (tile_spec_general F inclusive W G src st1 f r)
      as (st1' & He1 & Hfirst1 & _ & _ & _ & Hlen1 & Hd1 & _);
      [done.. | lia |].
    destruct (tile_spec_general F inclusive W G src st2 f r)
      as (st2' & He2 & Hfirst2 & _ & _ & _ & Hlen2 & Hd2 & _);
      [done.. | rewrite <- Hdest; lia |].
    exists st1', st2'. split; [done |]. split; [done |]. split; [| lia].
    apply list_eq. intros i. by rewrite Hd1, Hd2, Hcarry, Hdest.
Qed.

End properties.

Section small_scan_properties.

Context {T : Type}.
Variable binary_op : T → T → T.
Context `{!Assoc (=) binary_op}.

(** C3.  For a group of [W] workers (every [W >= 1] within [int], so every
    power of two), an array of [W] values at [first], a carry-in value and an
    associative [binary_op], [small_inplace_exclusive_scan_with_buffer]
    returns [binary_op carry (fold values)] and leaves in the array the carry
    at index 0 and [binary_op carry (fold (values[0..i)))] at every index
    [i > 0].  The two arrays [first] and [buffer] lie in [m] and do not
    overlap. *)
Theorem small_scan_total_and_prefixes (W first buffer : nat) (m : list T) (carry : T) :
  0 < W → (Z.of_nat W ≤ 2147483648)%Z →
  first + W ≤ length m → buffer + W ≤ length m →
  first + W ≤ buffer ∨ buffer + W ≤ first →
  ∃ m' y,
    small_inplace_exclusive_scan_with_buffer binary_op (Z.of_nat W) W m
      (Z.of_nat first) carry (Z.of_nat buffer) = Some (m', binary_op carry y) ∧
    fold binary_op (take W (drop first m)) = Some y ∧
    m' !! first = Some carry ∧
    ∀ i, 0 < i → i < W →
      ∃ z, fold binary_op (take i (take W (drop first m))) = Some z ∧
           m' !! (first + i) = Some (binary_op carry z).
Proof.
  intros HW HWint Hfirst Hbuffer Hdisj.
  destruct (small_scan_correct binary_op W first buffer m carry)
    as (m' & He & Hlen & Hm' & _); [done.. |].
  set (values := take W (drop first m)) in *.
  assert (length values = W) as Hv
    by (unfold values; rewrite length_take, length_drop; lia).
  destruct (fold_is_Some binary_op values) as [y Hy].
  { intros Hnil. rewrite Hnil in Hv. simpl in Hv. lia. }
  exists m', y. split; [| split; [done | split]].
  - by rewrite He, (foldl_fold binary_op _ _ _ Hy).
  - specialize (Hm' 0 HW). by rewrite Nat.add_0_r, take_0 in Hm'.
  - intros i Hi0 Hi.
    destruct (fold_is_Some binary_op (take i values)) as [z Hz].
    { intros Hnil. apply (f_equal length) in Hnil.
      rewrite length_take in Hnil. simpl in Hnil. lia. }
    exists z. split; [done |]. rewrite Hm' by done. f_equal.
    rewrite <- (foldl_fold binary_op _ _ _ Hz).
    unfold values. rewrite take_take. do 2 f_equal. lia.
Qed.

End small_scan_properties.

Section seedless_properties.

Context {T : Type}.
Variable f : T → T → T.
Context `{!Assoc (=) f}.


End seedless_properties.

(** C8.  On an empty source range [inclusive_scan], [exclusive_scan] and the
    overload without an initial value return without a fault and leave the
    destination as it was. *)
Theorem empty_range_writes_nothing {I M : Type} (F : instantiation I M)
    (f : M → M → M) (W G arch : nat) (a : allocation I M) (a' : allocation M M)
    (dst : list M) (r : Z) (init : M) :
  inclusive_scan F W G arch a [] dst r init = Some dst ∧
  exclusive_scan F W G arch a [] dst r init = Some dst ∧
  inclusive_scan_seedless f W G arch a' [] dst r = Some (dst, r).
Proof.
  rewrite inclusive_scan_dispatch, exclusive_scan_dispatch.
  repeat split. cbn. by rewrite Z.add_0_r.
Qed.

(** ** The templates do not look at the elements

    Whatever relations the operations of two instantiations preserve, two
    runs from related states stay related: they fault together, and what
    they return is related. *)

Lemma bind_rel {A A' B B' : Type} (RA : A → A' → Prop) (RB : B → B' → Prop)
    (m : option A) (m' : option A') (f : A → option B) (f' : A' → option B') :
  option_Forall2 RA m m' →
  (∀ a a', RA a a' → option_Forall2 RB (f a) (f' a')) →
  option_Forall2 RB (m ≫= f) (m' ≫= f').
Proof. intros [a a' Ha|] Hf; simpl; [by apply Hf | constructor]. Qed.

Lemma load_rel {A A' : Type} (RA : A → A' → Prop) (m : list A) (m' : list A') (i : Z) :
  Forall2 RA m m' → option_Forall2 RA (load m i) (load m' i).
Proof.
  intros Hm. unfold load. destruct (0 <=? i)%Z; [| constructor].
  by apply Forall2_lookup.
Qed.

Lemma store_rel {A A' : Type} (RA : A → A' → Prop) (m : list A) (m' : list A')
    (i : Z) (v : A) (v' : A') :
  Forall2 RA m m' → RA v v' →
  option_Forall2 (Forall2 RA) (store m i v) (store m' i v').
Proof.
  intros Hm Hv. unfold store. rewrite <- (Forall2_length _ _ _ Hm).
  destruct ((0 <=? i)%Z && (i <? Z.of_nat (length m))%Z); constructor.
  by apply Forall2_insert.
Qed.

Lemma each_worker_rel {St St' P P' Q Q' : Type}
    (RS : St → St' → Prop) (RP : P → P' → Prop) (RQ : Q → Q' → Prop)
    (body : nat → St → P → option (St * Q))
    (body' : nat → St' → P' → option (St' * Q')) :
  (∀ i s s' p p', RS s s' → RP p p' →
     option_Forall2 (pair_rel RS RQ) (body i s p) (body' i s' p')) →
  ∀ (ps : list P) (ps' : list P') (t : nat) (s : St) (s' : St'),
  RS s s' → Forall2 RP ps ps' →
  option_Forall2 (pair_rel RS (Forall2 RQ))
    (each_worker body t s ps) (each_worker body' t s' ps').
Proof.
  intros Hbody ps ps' t s s' Hs Hps. revert t s s' Hs.
  induction Hps as [|p p' ps ps' Hp Hps IH]; intros t s s' Hs; simpl.
  - constructor. by split.
  - eapply bind_rel; [by apply Hbody |].
    intros [s1 q] [s1' q'] [Hs1 Hq]. simpl in Hs1, Hq.
    eapply bind_rel; [by apply IH |].
    intros [s2 qs] [s2' qs'] [Hs2 Hqs]. simpl in Hs2, Hqs.
    constructor. split; [done |]. by constructor.
Qed.

Lemma for_range_rel {St St' : Type} (RS : St → St' → Prop)
    (body : Z → St → option St) (body' : Z → St' → option St') :
  (∀ i s s', RS s s' → option_Forall2 RS (body i s) (body' i s')) →
  ∀ (n i : nat) (s : St) (s' : St'),
  RS s s' → option_Forall2 RS (for_range i n body s) (for_range i n body' s').
Proof.
  intros Hbody n. induction n as [|n IH]; intros i s s' Hs; simpl.
  - by constructor.
  - eapply bind_rel; [by apply Hbody |]. intros s1 s1' Hs1. by apply IH.
Qed.

Lemma copy_loop_rel {A A' B B' : Type} (RA : A → A' → Prop) (RB : B → B' → Prop)
    (via : A → option B) (via' : A' → option B') (k : nat) :
  (∀ a a', RA a a' → option_Forall2 RB (via a) (via' a')) →
  ∀ (src : list A) (src' : list A') (s : Z) (dst : list B) (dst' : list B') (d : Z),
  Forall2 RA src src' → Forall2 RB dst dst' →
  option_Forall2 (Forall2 RB)
    (copy_loop via k src s dst d) (copy_loop via' k src' s dst' d).
Proof.
  intros Hvia.
  induction k as [|k IH]; intros src src' s dst dst' d Hsrc Hdst; simpl.
  - by constructor.
  - eapply bind_rel.
    { eapply bind_rel; [by apply load_rel |]. done. }
    intros v v' Hv.
    eapply bind_rel; [by apply store_rel |]. intros dst1 dst1' Hdst1.
    by apply IH.
Qed.

Lemma mjoin_rel {A A' : Type} (RA : A → A' → Prop)
    (o : option (option A)) (o' : option (option A')) :
  option_Forall2 (option_Forall2 RA) o o' → option_Forall2 RA (mjoin o) (mjoin o').
Proof. intros [x x' Hx|]; simpl; [done | constructor]. Qed.

Section small_scan_lifting.

Context {T T' : Type}.
Variable R : T → T' → Prop.
Variable binary_op : T → T → T.
Variable binary_op' : T' → T' → T'.
Hypothesis op_rel : ∀ a a' b b', R a a' → R b b' → R (binary_op a b) (binary_op' a' b').

Lemma small_scan_seed_rel (first : Z) (init : T) (init' : T') (i : nat)
    (m : list T) (m' : list T') (u u' : unit) :
  R init init' → Forall2 R m m' →
  option_Forall2 (pair_rel (Forall2 R) R)
    (small_scan_seed binary_op first init i m u)
    (small_scan_seed binary_op' first init' i m' u').
Proof.
  intros Hinit Hm. unfold small_scan_seed.
  eapply bind_rel with (RA := Forall2 R).
  - destruct (to_int (Z.of_nat i) =? 0)%Z; [| by constructor].
    eapply bind_rel; [by apply load_rel |]. intros v v' Hv.
    apply store_rel; [done | by apply op_rel].
  - intros m1 m1' Hm1. eapply bind_rel; [by apply load_rel |].
    intros x x' Hx. constructor. by split.
Qed.

Lemma small_scan_round_rel (offset ping pong : Z) (i : nat)
    (m : list T) (m' : list T') (x : T) (x' : T') :
  Forall2 R m m' → R x x' →
  option_Forall2 (pair_rel (Forall2 R) R)
    (small_scan_round binary_op offset ping pong i m x)
    (small_scan_round binary_op' offset ping pong i m' x').
Proof.
  intros Hm Hx. unfold small_scan_round.
  eapply bind_rel with (RA := R).
  - destruct (offset <=? to_int (Z.of_nat i))%Z; [| by constructor].
    eapply bind_rel; [by apply load_rel |]. intros y y' Hy.
    constructor. by apply op_rel.
  - intros x1 x1' Hx1. eapply bind_rel; [by apply store_rel |].
    intros m1 m1' Hm1. constructor. by split.
Qed.

Lemma small_scan_loop_rel (size : Z) (fuel : nat) :
  ∀ (offset ping pong : Z) (m : list T) (m' : list T') (xs : list T) (xs' : list T'),
  Forall2 R m m' → Forall2 R xs xs' →
  option_Forall2 (pair_rel (pair_rel eq (Forall2 R)) (Forall2 R))
    (small_scan_loop binary_op fuel size offset ping pong m xs)
    (small_scan_loop binary_op' fuel size offset ping pong m' xs').
Proof.
  induction fuel as [|fuel IH]; intros offset ping pong m m' xs xs' Hm Hxs; simpl;
    destruct (to_uint offset <? size)%Z; try by repeat constructor.
  eapply bind_rel.
  - apply (each_worker_rel (Forall2 R) R R); [| done | done].
    intros. by apply small_scan_round_rel.
  - intros [m1 xs1] [m1' xs1'] [Hm1 Hxs1]. by apply IH.
Qed.

Lemma small_scan_shift_rel (ping : Z) (init : T) (init' : T') (i : nat)
    (m : list T) (m' : list T') (x : T) (x' : T') :
  R init init' → Forall2 R m m' →
  option_Forall2 (pair_rel (Forall2 R) R)
    (small_scan_shift ping init i m x) (small_scan_shift ping init' i m' x').
Proof.
  intros Hinit Hm. unfold small_scan_shift.
  eapply bind_rel with (RA := R).
  - destruct (to_int (Z.of_nat i) =? 0)%Z; [by constructor | by apply load_rel].
  - intros y y' Hy. constructor. by split.
Qed.

Lemma small_scan_writeback_rel (first : Z) (i : nat)
    (m : list T) (m' : list T') (x : T) (x' : T') :
  Forall2 R m m' → R x x' →
  option_Forall2 (pair_rel (Forall2 R) eq)
    (small_scan_writeback first i m x) (small_scan_writeback first i m' x').
Proof.
  intros Hm Hx. unfold small_scan_writeback.
  eapply bind_rel; [by apply store_rel |]. intros m1 m1' Hm1.
  constructor. by split.
Qed.

Lemma small_scan_rel (size : Z) (g : nat) (m : list T) (m' : list T')
    (first : Z) (init : T) (init' : T') (buffer : Z) :
  Forall2 R m m' → R init init' →
  option_Forall2 (pair_rel (Forall2 R) R)
    (small_inplace_exclusive_scan_with_buffer binary_op size g m first init buffer)
    (small_inplace_exclusive_scan_with_buffer binary_op' size g m' first init' buffer).
Proof.
  intros Hm Hinit. unfold small_inplace_exclusive_scan_with_buffer.
  eapply bind_rel.
  { apply (each_worker_rel (Forall2 R) eq R); [| done | done].
    intros. by apply small_scan_seed_rel. }
  intros [m0 xs0] [m0' xs0'] [Hm0 Hxs0].
  eapply bind_rel; [by apply small_scan_loop_rel |].
  intros [[ping m1] xs1] [[ping' m1'] xs1'] [[Hping Hm1] Hxs1].
  simpl in Hping, Hm1, Hxs1. subst ping'.
  eapply bind_rel; [by apply load_rel |]. intros res res' Hres.
  eapply bind_rel.
  { apply (each_worker_rel (Forall2 R) R R); [| done | done].
    intros. by apply small_scan_shift_rel. }
  intros [m2 xs2] [m2' xs2'] [Hm2 Hxs2].
  eapply bind_rel.
  { apply (each_worker_rel (Forall2 R) R eq); [| done | done].
    intros. by apply small_scan_writeback_rel. }
  intros [m3 us] [m3' us'] [Hm3 _]. constructor. by split.
Qed.

End small_scan_lifting.

Section lifting.

Context {I I' M M' : Type}.
Variable RI : I → I' → Prop.
Variable RM : M → M' → Prop.
Variable F : instantiation I M.
Variable F' : instantiation I' M'.
Hypothesis F_rel : instantiation_rel RI RM F F'.

Local Abbreviation slots := (Forall2 (slot_rel RI RM)).
Local Abbreviation registers := (Forall2 (option_Forall2 RI)).

Lemma as_input_rel (c : I + M) (c' : I' + M') :
  slot_rel RI RM c c' → option_Forall2 RI (as_input c) (as_input c').
Proof. destruct c, c'; simpl; intros H; by constructor || destruct H. Qed.

Lemma as_result_rel (c : I + M) (c' : I' + M') :
  slot_rel RI RM c c' → option_Forall2 RM (as_result c) (as_result c').
Proof. destruct c, c'; simpl; intros H; by constructor || destruct H. Qed.

Lemma accumulate_step_rel (inputs : list (I + M)) (inputs' : list (I' + M'))
    (partition_size local_offset i : Z)
    (s : option I * list (option I)) (s' : option I' * list (option I')) :
  slots inputs inputs' →
  pair_rel (option_Forall2 RI) registers s s' →
  option_Forall2 (pair_rel (option_Forall2 RI) registers)
    (accumulate_step F inputs partition_size local_offset i s)
    (accumulate_step F' inputs' partition_size local_offset i s').
Proof.
  destruct F_rel as (_ & _ & Hcond & _ & _ & Hop).
  intros Hin Hs. unfold accumulate_step.
  destruct s as [x li], s' as [x' li']. destruct Hs as [Hx Hli]. simpl in Hx, Hli.
  destruct (to_int (local_offset + i) <? partition_size)%Z; [| by constructor].
  eapply bind_rel.
  { eapply bind_rel; [by apply load_rel |]. apply as_input_rel. }
  intros v v' Hv.
  eapply bind_rel; [apply store_rel; [done | by constructor] |].
  intros li1 li1' Hli1.
  eapply bind_rel with (RA := RI).
  - destruct (i =? 0)%Z; [constructor; by apply Hcond |].
    eapply bind_rel; [done |]. intros xv xv' Hxv. constructor. by apply Hop.
  - intros x1 x1' Hx1. constructor. split; [by constructor | done].
Qed.

Lemma accumulate_rel (G : nat) (partition_size : Z) (i : nat)
    (b : scan_buffer I M) (b' : scan_buffer I' M') (u u' : unit) :
  buffer_rel RI RM b b' →
  option_Forall2 (pair_rel (buffer_rel RI RM) (locals_rel RI))
    (accumulate F G partition_size i b u)
    (accumulate F' G partition_size i b' u').
Proof.
  destruct F_rel as (_ & _ & _ & Hti & _).
  intros [Hsums Hstage]. unfold accumulate.
  eapply bind_rel.
  { apply (for_range_rel (pair_rel (option_Forall2 RI) registers)).
    - intros. by apply accumulate_step_rel.
    - split; simpl; [constructor |]. apply Forall2_replicate. constructor. }
  intros [x li] [x' li'] [Hx Hli]. simpl in Hx, Hli.
  eapply bind_rel with (RA := Forall2 RM).
  - match goal with |- context [(?z =? 0)%Z] => destruct (z =? 0)%Z end;
      [by constructor |].
    eapply bind_rel; [done |]. intros xv xv' Hxv. apply store_rel; [done |].
    by apply Hti.
  - intros sums1 sums1' Hsums1. constructor. by repeat split.
Qed.

Lemma local_scan_step_rel (inclusive : bool)
    (li : list (option I)) (li' : list (option I'))
    (partition_size local_offset i : Z)
    (s : option I * list (I + M)) (s' : option I' * list (I' + M')) :
  registers li li' →
  pair_rel (option_Forall2 RI) slots s s' →
  option_Forall2 (pair_rel (option_Forall2 RI) slots)
    (local_scan_step F inclusive li partition_size local_offset i s)
    (local_scan_step F' inclusive li' partition_size local_offset i s').
Proof.
  destruct F_rel as (_ & Hop & _ & Hti & _).
  intros Hli Hs. unfold local_scan_step.
  destruct s as [x res], s' as [x' res']. destruct Hs as [Hx Hres]. simpl in Hx, Hres.
  destruct (to_int (local_offset + i) <? partition_size)%Z; [| by constructor].
  eapply bind_rel with (RA := option_Forall2 RI).
  { destruct inclusive; [| by constructor].
    eapply bind_rel; [done |]. intros xv xv' Hxv.
    eapply bind_rel; [by apply mjoin_rel, load_rel |]. intros v v' Hv.
    do 2 constructor. by apply Hop. }
  intros x1 x1' Hx1. eapply bind_rel; [done |]. intros xv1 xv1' Hxv1.
  eapply bind_rel.
  { apply store_rel; [done |]. simpl. by apply Hti. }
  intros res1 res1' Hres1.
  eapply bind_rel with (RA := option_Forall2 RI).
  { destruct inclusive; simpl; [by constructor |].
    eapply bind_rel; [by apply mjoin_rel, load_rel |]. intros v v' Hv.
    do 2 constructor. by apply Hop. }
  intros x2 x2' Hx2. constructor. by split.
Qed.

Lemma local_scan_rel (G : nat) (inclusive : bool) (partition_size : Z) (i : nat)
    (b : scan_buffer I M) (b' : scan_buffer I' M')
    (l : worker_locals I) (l' : worker_locals I') :
  buffer_rel RI RM b b' → locals_rel RI l l' →
  option_Forall2 (pair_rel (buffer_rel RI RM) eq)
    (local_scan F G inclusive partition_size i b l)
    (local_scan F' G inclusive partition_size i b' l').
Proof.
  destruct F_rel as (_ & _ & _ & _ & Hto).
  intros [Hsums Hstage] (Hoff & Hsize & Hx & Hli). unfold local_scan.
  rewrite <- Hoff, <- Hsize.
  eapply bind_rel with (RA := option_Forall2 RI).
  { destruct (local_size l =? 0)%Z; [by constructor |].
    eapply bind_rel; [by apply load_rel |]. intros v v' Hv.
    do 2 constructor. by apply Hto. }
  intros x0 x0' Hx0.
  eapply bind_rel.
  { apply (for_range_rel (pair_rel (option_Forall2 RI) slots)).
    - intros. by apply local_scan_step_rel.
    - by split. }
  intros [x1 res] [x1' res'] [_ Hres]. simpl in Hres.
  constructor. by repeat split.
Qed.

Lemma tile_rel (W G : nat) (inclusive : bool) (src : list I) (src' : list I')
    (last : Z) (st : loop_state I M) (st' : loop_state I' M') :
  Forall2 RI src src' → state_rel RI RM st st' →
  option_Forall2 (state_rel RI RM)
    (tile F W G inclusive src last st)
    (tile F' W G inclusive src' last st').
Proof.
  pose proof F_rel as (Hop & _).
  intros Hsrc (Hfirst & Hresult & Hcarry & [Hsums Hstage] & Hdest). unfold tile.
  rewrite <- Hfirst, <- Hresult.
  eapply bind_rel.
  { apply (copy_loop_rel RI (slot_rel RI RM)); [| done | done].
    intros a a' Ha. by constructor. }
  intros inputs inputs' Hin.
  eapply bind_rel.
  { apply (each_worker_rel (buffer_rel RI RM) eq (locals_rel RI)); [| by split | done].
    intros. by apply accumulate_rel. }
  intros [b1 ls] [b1' ls'] [[Hsums1 Hstage1] Hls]. simpl in Hls.
  eapply bind_rel; [by apply (small_scan_rel RM) |].
  intros [sums2 total] [sums2' total'] [Hsums2 Htotal]. simpl in Hsums2, Htotal.
  eapply bind_rel.
  { apply (each_worker_rel (buffer_rel RI RM) (locals_rel RI) eq); [| by split | done].
    intros. by apply local_scan_rel. }
  intros [b3 us] [b3' us'] [[Hsums3 Hstage3] _].
  eapply bind_rel.
  { apply (copy_loop_rel (slot_rel RI RM) RM); [| done | done].
    apply as_result_rel. }
  intros dest1 dest1' Hdest1.
  constructor. by repeat split.
Qed.

Lemma tile_loop_rel (W G : nat) (inclusive : bool) (src : list I) (src' : list I')
    (last : Z) (fuel : nat) :
  Forall2 RI src src' →
  ∀ (st : loop_state I M) (st' : loop_state I' M'),
  state_rel RI RM st st' →
  option_Forall2 (state_rel RI RM)
    (tile_loop F W G fuel inclusive src last st)
    (tile_loop F' W G fuel inclusive src' last st').
Proof.
  intros Hsrc. induction fuel as [|fuel IH]; intros st st' Hst; simpl;
    rewrite <- (proj1 Hst); destruct (first st <? last)%Z; try by constructor.
  eapply bind_rel; [by apply tile_rel |]. intros st1 st1' Hst1. by apply IH.
Qed.

Lemma scan_with_buffer_rel (W G : nat) (inclusive : bool)
    (src : list I) (src' : list I') (dst : list M) (dst' : list M') (r : Z)
    (init : M) (init' : M') (b : scan_buffer I M) (b' : scan_buffer I' M') :
  Forall2 RI src src' → Forall2 RM dst dst' → RM init init' →
  buffer_rel RI RM b b' →
  option_Forall2 (state_rel RI RM)
    (scan_with_buffer F W G inclusive src dst r init b)
    (scan_with_buffer F' W G inclusive src' dst' r init' b').
Proof.
  intros Hsrc Hdst Hinit Hb. unfold scan_with_buffer.
  rewrite <- (Forall2_length _ _ _ Hsrc).
  apply tile_loop_rel; [done |]. by do 4 (split; [done |]).
Qed.

End lifting.

Lemma load_Some {A : Type} (m : list A) (z : Z) (v : A) :
  load m z = Some v → (0 ≤ z)%Z ∧ m !! Z.to_nat z = Some v.
Proof. unfold load. destruct (Z.leb_spec 0 z); [done | discriminate]. Qed.

Lemma store_Some {A : Type} (m m' : list A) (z : Z) (v : A) :
  store m z v = Some m' →
  (0 ≤ z < Z.of_nat (length m))%Z ∧ m' = <[Z.to_nat z := v]> m.
Proof.
  unfold store. destruct (Z.leb_spec 0 z), (Z.ltb_spec z (Z.of_nat (length m)));
    simpl; intros [= <-] || discriminate. split; [lia | done].
Qed.

Lemma store_same_shape {A : Type} (m m2 : list A) (z : Z) (v : A) :
  length m = length m2 →
  option_Forall2 (λ r r2, length r = length r2 ∧
                          r !! Z.to_nat z = r2 !! Z.to_nat z ∧
                          ∀ a, m !! a = m2 !! a → r !! a = r2 !! a)
    (store m z v) (store m2 z v).
Proof.
  intros Hlen. unfold store. rewrite <- Hlen.
  destruct (Z.leb_spec 0 z), (Z.ltb_spec z (Z.of_nat (length m))); simpl;
    constructor.
  split; [by rewrite !length_insert |].
  split; [by rewrite !list_lookup_insert_eq by lia |].
  intros a Ha. destruct (decide (a = Z.to_nat z)) as [-> | Hne].
  - by rewrite !list_lookup_insert_eq by lia.
  - by rewrite !list_lookup_insert_ne by done.
Qed.

Lemma each_worker_results {St P Q : Type} (body : nat → St → P → option (St * Q))
    (ps : list P) :
  ∀ (t : nat) (s s' : St) (qs : list Q),
  each_worker body t s ps = Some (s', qs) →
  ∀ k q, qs !! k = Some q →
  ∃ p s0 s1, ps !! k = Some p ∧ body (t + k) s0 p = Some (s1, q).
Proof.
  induction ps as [|p ps IH]; intros t s s' qs Hrun k q Hq; simpl in Hrun.
  - by simplify_eq.
  - destruct (body t s p) as [[s1 q1]|] eqn:Eb; simpl in Hrun; [| done].
    destruct (each_worker body (S t) s1 ps) as [[s2 qs2]|] eqn:Er;
      simplify_eq/=.
    destruct k as [|k]; simpl in Hq.
    + simplify_eq. exists p, s, s1. by rewrite Nat.add_0_r.
    + destruct (IH _ _ _ _ Er k q Hq) as (p' & s0 & s1' & Hp & Hb).
      exists p', s0, s1'. split; [done |].
      by replace (t + S k) with (S t + k) by lia.
Qed.

Lemma for_range_keeps {St : Type} (body : Z → St → option St) (I : St → Prop)
    (n : nat) :
  ∀ (i : nat) (s s' : St),
  (Z.of_nat (i + n) ≤ 2147483648)%Z →
  I s →
  (∀ j s0 s1, i ≤ j < i + n → I s0 → body (Z.of_nat j) s0 = Some s1 → I s1) →
  for_range i n body s = Some s' → I s'.
Proof.
  induction n as [|n IH]; intros i s s' Hb Hs Hstep Hrun; simpl in Hrun.
  - by simplify_eq.
  - rewrite to_int_small in Hrun by lia.
    destruct (body (Z.of_nat i) s) as [s1|] eqn:E1; simpl in Hrun; [| done].
    apply (IH (S i) s1 s'); [lia | | | done].
    + apply (Hstep i s s1); [lia | done | done].
    + intros j s0 s2 Hj. apply Hstep. lia.
Qed.

Lemma option_Forall2_diag {A : Type} (R : A → A → Prop) (o : option A) :
  (∀ x, R x x) → option_Forall2 R o o.
Proof. intros HR. destruct o; constructor; auto. Qed.


(** ** Termination and bounds without associativity *)

Section small_scan_safety.

Context {T : Type}.
Variable binary_op : T → T → T.

(** [y] is [x], or is not known. *)
Local Abbreviation approx := (λ (x : T) (y : option T), y = None ∨ y = Some x).

(** The operation that forgets everything; it is associative. *)
Local Abbreviation forget := (λ _ _ : option T, @None T).

Lemma approx_forget (a : T) (a' : option T) (b : T) (b' : option T) :
  approx a a' → approx b b' → approx (binary_op a b) (forget a' b').
Proof. intros _ _. by left. Qed.

Lemma approx_Some (l : list T) : Forall2 approx l (Some <$> l).
Proof. induction l as [|x l IH]; simpl; constructor; auto. Qed.

Lemma approx_lookup (l : list T) (k : list (option T)) (i : nat) (o : option T) :
  Forall2 approx l k → k !! i = Some <$> o → l !! i = o.
Proof.
  intros Hlk Hk. pose proof (proj1 (Forall2_lookup _ _ _) Hlk i) as Hi.
  rewrite Hk in Hi. destruct o as [d|]; simpl in Hi; inversion Hi as [x y Hxy|]; subst.
  - destruct Hxy as [|[= ->]]; done.
  - done.
Qed.

(** Whatever [binary_op] is, the small scan on two disjoint arrays of [W]
    slots returns. *)
Lemma small_scan_returns (W first buffer : nat) (m : list T) (carry : T) :
  0 < W → (Z.of_nat W ≤ 2147483648)%Z →
  first + W ≤ length m → buffer + W ≤ length m →
  first + W ≤ buffer ∨ buffer + W ≤ first →
  ∃ m' total,
    small_inplace_exclusive_scan_with_buffer binary_op (Z.of_nat W) W m
      (Z.of_nat first) carry (Z.of_nat buffer) = Some (m', total) ∧
    length m' = length m.
Proof.
  intros HW HWint Hfirst Hbuffer Hdisj.
  destruct (small_scan_correct forget W first buffer (Some <$> m) (Some carry))
    as (k' & He' & Hlen' & _); [done | done | by rewrite length_fmap.. | done |].
  pose proof (small_scan_rel approx binary_op forget approx_forget (Z.of_nat W) W
                m (Some <$> m) (Z.of_nat first) carry (Some carry) (Z.of_nat buffer)
                (approx_Some m) (or_intror eq_refl)) as Hrel.
  rewrite He' in Hrel.
  inversion Hrel as [[m' total] ? [Hm _] |]; subst. simpl in Hm.
  exists m', total. split; [done |].
  rewrite (Forall2_length _ _ _ Hm), Hlen'. by rewrite length_fmap.
Qed.

(** X5.  For every [binary_op], the small scan on two disjoint arrays of [W]
    slots returns, keeps the length of the memory, writes nothing outside
    the two arrays and leaves the carry itself in [first[0]]. *)
Theorem small_scan_is_safe_for_every_operation (W first buffer : nat) (m : list T)
    (carry : T) :
  0 < W → (Z.of_nat W ≤ 2147483648)%Z →
  first + W ≤ length m → buffer + W ≤ length m →
  first + W ≤ buffer ∨ buffer + W ≤ first →
  ∃ m' total,
    small_inplace_exclusive_scan_with_buffer binary_op (Z.of_nat W) W m
      (Z.of_nat first) carry (Z.of_nat buffer) = Some (m', total) ∧
    length m' = length m ∧
    m' !! first = Some carry ∧
    ∀ i, ¬ (first ≤ i < first + W) → ¬ (buffer ≤ i < buffer + W) → m' !! i = m !! i.
Proof.
  intros HW HWint Hfirst Hbuffer Hdisj.
  destruct (small_scan_correct forget W first buffer (Some <$> m) (Some carry))
    as (k' & He' & Hlen' & Hk' & Hout'); [done | done | by rewrite length_fmap.. | done |].
  pose proof (small_scan_rel approx binary_op forget approx_forget (Z.of_nat W) W
                m (Some <$> m) (Z.of_nat first) carry (Some carry) (Z.of_nat buffer)
                (approx_Some m) (or_intror eq_refl)) as Hrel.
  rewrite He' in Hrel.
  inversion Hrel as [[m' total] ? [Hm _] |]; subst. simpl in Hm.
  exists m', total. rewrite length_fmap in Hlen'. split; [done |]. split; [| split].
  - by rewrite (Forall2_length _ _ _ Hm).
  - apply (approx_lookup _ _ _ (Some carry) Hm).
    specialize (Hk' 0 HW). by rewrite Nat.add_0_r, take_0 in Hk'.
  - intros i Hi1 Hi2. apply (approx_lookup _ _ _ _ Hm).
    rewrite Hout' by done. by rewrite list_lookup_fmap.
Qed.

End small_scan_safety.

Lemma copy_loop_frame {A B : Type} (via : A → option B) (k : nat) :
  ∀ (src : list A) (s : Z) (dst dst' : list B) (d : nat),
  copy_loop via k src s dst (Z.of_nat d) = Some dst' →
  length dst' = length dst ∧ ∀ j, ¬ (d ≤ j < d + k) → dst' !! j = dst !! j.
Proof.
  induction k as [|k IH]; intros src s dst dst' d Hrun; simpl in Hrun.
  - by simplify_eq.
  - destruct (load src s ≫= via) as [v|]; simpl in Hrun; [| done].
    destruct (store dst (Z.of_nat d) v) as [dst1|] eqn:Es; simpl in Hrun; [| done].
    apply store_Some in Es as [_ ->]. rewrite Nat2Z.id in Hrun.
    replace (Z.of_nat d + 1)%Z with (Z.of_nat (S d)) in Hrun by lia.
    apply IH in Hrun as [Hlen Hout]. rewrite length_insert in Hlen.
    split; [done |]. intros j Hj.
    rewrite Hout by lia. apply list_lookup_insert_ne. lia.
Qed.

Section scan_safety.

Context {I M : Type}.
Variable F : instantiation I M.

(** A pass of the tile loop writes to the destination through the last copy
    only. *)
Lemma tile_frame (W G : nat) (inclusive : bool) (src : list I) (last : Z)
    (st st' : loop_state I M) (r : nat) :
  result st = Z.of_nat r →
  tile F W G inclusive src last st = Some st' →
  first st' = (first st + to_int (Z.of_nat W * Z.of_nat G))%Z ∧
  result st' = (result st + to_int (Z.of_nat W * Z.of_nat G))%Z ∧
  length (dest st') = length (dest st) ∧
  ∀ j, ¬ (r ≤ j < r + Z.to_nat (Z.min (to_int (Z.of_nat W * Z.of_nat G))
                                      (to_int (last - first st)))) →
       dest st' !! j = dest st !! j.
Proof.
  intros Hr Ht. unfold tile in Ht.
  destruct (copy_n _ src _ _ _ _); simpl in Ht; [| done].
  destruct (each_worker (accumulate _ _ _) _ _ _) as [[b1 ls]|]; simpl in Ht;
    [| done].
  destruct (small_inplace_exclusive_scan_with_buffer _ _ _ _ _ _ _)
    as [[sums2 total]|]; simpl in Ht; [| done].
  destruct (each_worker (local_scan _ _ _ _) _ _ _) as [[b3 us]|]; simpl in Ht;
    [| done].
  destruct (copy_n as_result (stage b3) _ _ _ _) as [dest'|] eqn:Ec; simpl in Ht;
    [| done].
  injection Ht as <-. simpl. unfold copy_n in Ec. rewrite Hr in Ec.
  apply copy_loop_frame in Ec as [Hlen Hout]. by repeat split.
Qed.

Lemma tile_loop_frame (W G : nat) (inclusive : bool) (src : list I) (r : nat) :
  0 < W * G → (Z.of_nat (W * G) < 2147483648)%Z →
  (Z.of_nat (length src) < 2147483648)%Z →
  ∀ (fuel f : nat) (st st' : loop_state I M),
  first st = Z.of_nat f → result st = Z.of_nat (r + f) →
  tile_loop F W G fuel inclusive src (Z.of_nat (length src)) st = Some st' →
  length (dest st') = length (dest st) ∧
  ∀ j, ¬ (r + f ≤ j < r + length src) → dest st' !! j = dest st !! j.
Proof.
  intros HWG Hint Hsrc fuel.
  induction fuel as [|fuel IH]; intros f st st' Hfirst Hresult Hrun;
    cbn [tile_loop] in Hrun; rewrite Hfirst in Hrun;
    destruct (Z.ltb_spec (Z.of_nat f) (Z.of_nat (length src))) as [Hlt | Hge];
    try done; try (by simplify_eq).
  destruct (tile F W G inclusive src (Z.of_nat (length src)) st) as [st1|] eqn:Et;
    simpl in Hrun; [| done].
  apply (tile_frame _ _ _ _ _ _ _ (r + f) Hresult) in Et
    as (Hfirst1 & Hresult1 & Hlen1 & Hout1).
  rewrite Hfirst in Hfirst1, Hout1. rewrite Hresult in Hresult1.
  replace (Z.of_nat W * Z.of_nat G)%Z with (Z.of_nat (W * G)) in * by lia.
  rewrite !to_int_small in * by lia.
  apply (IH (f + W * G)) in Hrun as [Hlen' Hout']; [| lia | lia].
  split; [lia |]. intros j Hj. rewrite Hout' by lia. apply Hout1. lia.
Qed.

(** The instantiation at which every value is [()]. *)
Local Abbreviation unit_op := (λ _ _ : (), ()).
Local Abbreviation any_input := (λ (_ : I) (_ : ()), True).
Local Abbreviation any_value := (λ (_ : M) (_ : ()), True).

Lemma unit_op_assoc : Assoc (=) unit_op.
Proof. by intros [] [] []. Qed.

Lemma everything_is_related :
  instantiation_rel any_input any_value F (same_type unit_op).
Proof. by repeat split. Qed.

Lemma Forall2_anything {A : Type} (l : list A) :
  Forall2 (λ (_ : A) (_ : ()), True) l (replicate (length l) ()).
Proof. induction l as [|x l IH]; simpl; by constructor. Qed.

Lemma slots_anything (l : list (I + M)) :
  Forall2 (slot_rel any_input any_value) l
    ((λ c, match c with inl _ => inl () | inr _ => inr () end) <$> l).
Proof. induction l as [|[v|v] l IH]; simpl; by constructor. Qed.

(** [scan_with_buffer] returns whatever the operations are, and writes
    nothing outside the destination range. *)
Lemma scan_with_buffer_safe (inclusive : bool) (W G : nat) (src : list I)
    (dst : list M) (r : nat) (init : M) (b : scan_buffer I M) :
  representable W G (length src) → capacity W G b →
  r + length src ≤ length dst →
  ∃ st,
    scan_with_buffer F W G inclusive src dst (Z.of_nat r) init b = Some st ∧
    length (dest st) = length dst ∧
    ∀ i, ¬ (r ≤ i < r + length src) → dest st !! i = dst !! i.
Proof.
  intros Hrep [Hsums Hstage] Hdst.
  set (b' := {| sums := replicate (length (sums b)) ();
                stage := (λ c : I + M, match c with
                                       | inl _ => @inl () () ()
                                       | inr _ => inr ()
                                       end) <$> stage b |}).
  destruct (scan_with_buffer_lookup (same_type unit_op) (Assoc0 := unit_op_assoc)
              inclusive W G (replicate (length src) ()) (replicate (length dst) ())
              r () b') as (st' & He' & _).
  { apply same_type_exact. }
  { by rewrite length_replicate. }
  { split; simpl; by rewrite ?length_replicate, ?length_fmap. }
  { by rewrite !length_replicate. }
  pose proof (scan_with_buffer_rel any_input any_value F (same_type unit_op)
                everything_is_related W G inclusive
                src (replicate (length src) ()) dst (replicate (length dst) ())
                (Z.of_nat r) init () b b' (Forall2_anything src) (Forall2_anything dst)
                Logic.I (conj (Forall2_anything (sums b)) (slots_anything (stage b))))
    as Hrel.
  rewrite He' in Hrel.
  inversion Hrel as [st st'' _ Hst|]; subst. symmetry in Hst.
  exists st. split; [done |].
  destruct Hrep as (HW & HG & Hint & Hsrc).
  unfold scan_with_buffer in Hst.
  apply (tile_loop_frame W G inclusive src r ltac:(nia) Hint Hsrc _ 0) in Hst
    as [Hlen Hout]; [| done | simpl; f_equal; lia].
  simpl in Hlen, Hout. split; [done |]. intros i Hi. apply Hout. lia.
Qed.

(** X3.  For every instantiation, with [binary_op] associative or not and
    conversions of any kind, on sizes within [int] and with a scratch buffer
    and a destination of the sizes asked for: both scans return without a
    fault, keep the length of the destination and leave every slot outside
    the [length src] slots from [r] as it was. *)
Theorem scans_are_safe_for_every_operation (W G arch : nat) (a : allocation I M)
    (src : list I) (dst : list M) (r : nat) (init : M) :
  representable W G (length src) → capacity W G (block a) →
  r + length src ≤ length dst →
  ∃ inc exc,
    inclusive_scan F W G arch a src dst (Z.of_nat r) init = Some inc ∧
    exclusive_scan F W G arch a src dst (Z.of_nat r) init = Some exc ∧
    length inc = length dst ∧ length exc = length dst ∧
    ∀ i, ¬ (r ≤ i < r + length src) → inc !! i = dst !! i ∧ exc !! i = dst !! i.
Proof.
  intros Hrep Hcap Hdst. rewrite inclusive_scan_dispatch, exclusive_scan_dispatch.
  destruct (scan_with_buffer_safe true W G src dst r init (block a))
    as (st1 & -> & Hlen1 & Hf1); [done.. |].
  destruct (scan_with_buffer_safe false W G src dst r init (block a))
    as (st2 & -> & Hlen2 & Hf2); [done.. |].
  exists (dest st1), (dest st2). do 4 (split; [done |]).
  intros i Hi. split; [by apply Hf1 | by apply Hf2].
Qed.

End scan_safety.

(** X4.  For every [binary_op], the overload without an initial value returns the
    end of the destination range, leaves the first source element in the
    first destination slot, and writes nothing outside the range. *)
Theorem seedless_scan_is_safe_for_every_operation {T : Type} (f : T → T → T)
    (W G arch : nat) (a : allocation T T)
    (src dst : list T) (r : nat) (x0 : T) (rest : list T) :
  representable W G (length src) → capacity W G (block a) →
  r + length src ≤ length dst →
  src = x0 :: rest →
  ∃ dst',
    inclusive_scan_seedless f W G arch a src dst (Z.of_nat r)
    = Some (dst', Z.of_nat (r + length src)) ∧
    length dst' = length dst ∧
    dst' !! r = Some x0 ∧
    ∀ i, ¬ (r ≤ i < r + length src) → dst' !! i = dst !! i.
Proof.
  intros (HW & HG & Hint & Hsrc) Hcap Hdst ->. cbn [length] in *.
  unfold inclusive_scan_seedless.
  destruct (write_first_phase W dst r x0) as (us & ->); [done | lia |].
  cbn [mbind option_bind]. rewrite inclusive_scan_dispatch.
  replace (Z.of_nat r + 1)%Z with (Z.of_nat (r + 1)) by lia.
  destruct (scan_with_buffer_safe (same_type f) true W G rest (<[r:=x0]> dst) (r + 1)
              x0 (block a))
    as (st & -> & Hlen & Hf).
  { repeat split; done || lia. } { done. } { rewrite length_insert. lia. }
  cbn [fmap option_fmap option_map mbind option_bind].
  exists (dest st). split; [do 2 f_equal; cbn [length]; lia |]. split; [| split].
  - by rewrite Hlen, length_insert.
  - rewrite Hf by lia. by rewrite list_lookup_insert_eq by lia.
  - intros i Hi. rewrite Hf by lia. by rewrite list_lookup_insert_ne by lia.
Qed.

(** ** How calls compose *)

Section prefix_of_append.

Context {T : Type}.
Variable binary_op : T → T → T.



End prefix_of_append.

Section compositions.

Context {I M : Type}.
Variable F : instantiation I M.
Context `{!Assoc (=) (binary_op F)}.

Local Abbreviation op := (binary_op F).
Local Abbreviation ti := (to_intermediate F).
Local Abbreviation foldl := (fold_left (binary_op F)).




End compositions.

Section seedless_and_seeded.

Context {T : Type}.
Variable f : T → T → T.
Context `{!Assoc (=) f}.

(** X7.  With a left identity [e] of [binary_op] as the initial value,
    [inclusive_scan] at one element type writes what the overload without
    an initial value writes. *)
Theorem seeded_with_left_identity (W G arch : nat) (a a' : allocation T T)
    (src dst : list T) (r : nat) (e : T) :
  representable W G (length src) →
  capacity W G (block a) → capacity W G (block a') →
  r + length src ≤ length dst →
  src ≠ [] →
  (∀ x, f e x = x) →
  inclusive_scan_seedless f W G arch a src dst (Z.of_nat r)
  = (λ d, (d, Z.of_nat (r + length src)))
      <$> inclusive_scan (same_type f) W G arch a' src dst (Z.of_nat r) e.
Proof.
  intros (HW & HG & Hint & Hsrc) Hcap Hcap' Hdst Hne He.
  destruct src as [|x0 rest]; [done |]. cbn [length] in *.
  unfold inclusive_scan_seedless.
  destruct (write_first_phase W dst r x0) as (us & ->); [done | lia |].
  cbn [mbind option_bind]. rewrite !inclusive_scan_dispatch.
  replace (Z.of_nat r + 1)%Z with (Z.of_nat (r + 1)) by lia.
  destruct (scan_with_buffer_lookup (same_type f) true W G rest (<[r:=x0]> dst)
              (r + 1) x0 (block a)) as (st & -> & Hlen & Hd).
  { apply same_type_exact. } { repeat split; done || lia. } { done. }
  { rewrite length_insert. lia. }
  destruct (scan_with_buffer_lookup (same_type f) true W G (x0 :: rest) dst r e
              (block a'))
    as (st' & -> & Hlen' & Hd').
  { apply same_type_exact. } { repeat split; done || (cbn [length]; lia). }
  { done. } { cbn [length]. lia. }
  cbn [same_type to_intermediate binary_op] in Hd, Hd'.
  rewrite list_fmap_id in Hd, Hd'.
  cbn [fmap option_fmap option_map mbind option_bind length].
  f_equal. f_equal; [| lia]. apply list_eq. intros i.
  rewrite Hd, Hd'. cbn [length].
  destruct (decide (i = r)) as [-> | Hir].
  - case_decide; [lia |]. case_decide; [| lia].
    rewrite list_lookup_insert_eq by lia. rewrite Nat.sub_diag.
    unfold prefix. simpl. by rewrite He.
  - rewrite list_lookup_insert_ne by done.
    repeat case_decide; try done; try lia. f_equal. unfold prefix.
    replace (i - r) with (S (i - (r + 1))) by lia. simpl. by rewrite He.
Qed.

End seedless_and_seeded.

(** ** The order of the workers within a phase

    A phase is free of races when no worker reads or writes a cell that
    another worker writes.  [writes i a] says that worker [i] may write cell
    [a]; [cells] reads a cell of the shared state and [shape] is what a fault
    depends on. *)

Section race_freedom.

Context {St P Q A Addr Sh : Type}.
Variable cells : St → Addr → option A.
Variable shape : St → Sh.
Variable body : nat → St → P → option (St * Q).
Variable writes : nat → Addr → bool.
Variable ps : list P.

Hypothesis cells_ext : ∀ s s', (∀ a, cells s a = cells s' a) → s = s'.
Hypothesis writes_disjoint : ∀ i j a, i ≠ j → writes i a = true → writes j a = false.
(** A worker leaves the cells that it does not write as they are. *)
Hypothesis frame : ∀ i s p s' q,
  ps !! i = Some p → body i s p = Some (s', q) →
  shape s' = shape s ∧ ∀ a, writes i a = false → cells s' a = cells s a.
(** What a worker does, does not depend on the cells that another worker
    writes. *)
Hypothesis uniform : ∀ i j s s2 p,
  i ≠ j → ps !! i = Some p → ps !! j ≠ None →
  shape s = shape s2 → (∀ a, writes j a = false → cells s a = cells s2 a) →
  option_Forall2 (λ r r2, r.2 = r2.2 ∧ shape r.1 = shape r2.1 ∧
                          ∀ a, writes i a = true → cells r.1 a = cells r2.1 a)
    (body i s p) (body i s2 p).

Lemma phase_commute (i j : nat) (s : St) (pi pj : P) :
  i ≠ j → ps !! i = Some pi → ps !! j = Some pj →
  (body i s pi ≫= λ '(s1, qi), body j s1 pj ≫= λ '(s2, qj), Some (s2, qi, qj))
  = (body j s pj ≫= λ '(s1, qj), body i s1 pi ≫= λ '(s2, qi), Some (s2, qi, qj)).
Proof.
  intros Hij Hi Hj.
  assert (ps !! i ≠ None) as Hi' by (by rewrite Hi).
  assert (ps !! j ≠ None) as Hj' by (by rewrite Hj).
  destruct (body i s pi) as [[si qi]|] eqn:Ei, (body j s pj) as [[sj qj]|] eqn:Ej;
    simpl.
  - destruct (frame i s pi si qi Hi Ei) as [Hshi Hfi].
    destruct (frame j s pj sj qj Hj Ej) as [Hshj Hfj].
    pose proof (uniform i j s sj pi Hij Hi Hj' (eq_sym Hshj)
                  (λ a Ha, eq_sym (Hfj a Ha))) as Hui.
    pose proof (uniform j i s si pj (not_eq_sym Hij) Hj Hi' (eq_sym Hshi)
                  (λ a Ha, eq_sym (Hfi a Ha))) as Huj.
    rewrite Ei in Hui. rewrite Ej in Huj.
    inversion Hui as [? [sji qi'] (Hqi & _ & Hci) E1 E2|]; subst.
    inversion Huj as [? [sij qj'] (Hqj & _ & Hcj) E3 E4|]; subst.
    simpl in Hqi, Hqj, Hci, Hcj. subst qi' qj'. simpl.
    symmetry in E2, E4.
    destruct (frame i sj pi sji qi Hi E2) as [_ Hfji].
    destruct (frame j si pj sij qj Hj E4) as [_ Hfij].
    do 2 f_equal. f_equal. apply cells_ext. intros a.
    destruct (writes i a) eqn:Hwi, (writes j a) eqn:Hwj.
    + by rewrite (writes_disjoint i j a Hij Hwi) in Hwj.
    + by rewrite (Hfij a Hwj), (Hci a Hwi).
    + by rewrite <- (Hcj a Hwj), (Hfji a Hwi).
    + by rewrite (Hfij a Hwj), (Hfi a Hwi), (Hfji a Hwi), (Hfj a Hwj).
  - destruct (frame i s pi si qi Hi Ei) as [Hshi Hfi].
    pose proof (uniform j i s si pj (not_eq_sym Hij) Hj Hi' (eq_sym Hshi)
                  (λ a Ha, eq_sym (Hfi a Ha))) as Huj.
    rewrite Ej in Huj. by inversion Huj.
  - destruct (frame j s pj sj qj Hj Ej) as [Hshj Hfj].
    pose proof (uniform i j s sj pi Hij Hi Hj' (eq_sym Hshj)
                  (λ a Ha, eq_sym (Hfj a Ha))) as Hui.
    rewrite Ei in Hui. by inversion Hui.
  - done.
Qed.

(** Two orders of the same workers give the same outcome. *)
Lemma phase_order_irrelevant (o1 o2 : list nat) :
  o1 ≡ₚ o2 → NoDup o1 →
  ∀ (s : St) (qs : list (option Q)),
  each_worker_in body o1 s ps qs = each_worker_in body o2 s ps qs.
Proof.
  induction 1 as [|x l l' Hl IH|x y l|l l' l'' H1 IH1 H2 IH2]; intros Hnd s qs.
  - done.
  - apply NoDup_cons in Hnd as [_ Hnd]. simpl.
    destruct (ps !! x) as [p|]; simpl; [| done].
    destruct (body x s p) as [[s1 q]|]; simpl; [| done]. by apply IH.
  - apply NoDup_cons in Hnd as [Hy Hnd].
    assert (x ≠ y) as Hxy by (intros ->; apply Hy; left).
    simpl.
    destruct (ps !! y) as [py|] eqn:Epy, (ps !! x) as [px|] eqn:Epx; simpl.
    + pose proof (phase_commute y x s py px (not_eq_sym Hxy) Epy Epx) as Hc.
      destruct (body y s py) as [[s1 qy]|] eqn:E1,
               (body x s px) as [[s1' qx]|] eqn:E2; simpl in Hc |- *.
      * destruct (body x s1 px) as [[s2 qx']|] eqn:E3,
                 (body y s1' py) as [[s2' qy']|] eqn:E4; simpl in Hc |- *;
          try done.
        simplify_eq. by rewrite list_insert_insert_ne by done.
      * destruct (body x s1 px) as [[s2 qx']|]; simpl in Hc |- *; done.
      * destruct (body y s1' py) as [[s2' qy']|]; simpl in Hc |- *; done.
      * done.
    + by destruct (body y s py) as [[s1 qy]|].
    + by destruct (body x s px) as [[s1 qx]|].
    + done.
  - rewrite IH1 by done. apply IH2. by rewrite <- H1.
Qed.

End race_freedom.

(** The phase in index order is the phase in the order [0, 1, ..., W-1]. *)
Lemma each_worker_in_seq {St P Q : Type} (body : nat → St → P → option (St * Q))
    (ps : list P) :
  ∀ (pre : list P) (t : nat) (s : St) (qs0 : list (option Q)),
  length pre = t → length qs0 = t + length ps →
  each_worker_in body (seq t (length ps)) s (pre ++ ps) qs0
  = each_worker body t s ps ≫= λ '(s', qs), Some (s', take t qs0 ++ (Some <$> qs)).
Proof.
  induction ps as [|p ps IH]; intros pre t s qs0 Hpre Hqs; simpl in *.
  - by rewrite take_ge, app_nil_r by lia.
  - rewrite list_lookup_middle by done. simpl.
    destruct (body t s p) as [[s1 q]|]; simpl; [| done].
    rewrite (cons_middle p pre ps), app_assoc.
    rewrite IH by (rewrite ?length_app, ?length_insert; simpl; lia).
    destruct (each_worker body (S t) s1 ps) as [[s2 qs]|]; simpl; [| done].
    do 2 f_equal.
    rewrite (take_S_r _ _ (Some q)) by (apply list_lookup_insert_eq; lia).
    rewrite take_insert_ge by lia. by rewrite <- app_assoc.
Qed.

Lemma each_worker_in_index_order {St P Q : Type}
    (body : nat → St → P → option (St * Q)) (s : St) (ps : list P) :
  each_worker_in body (seq 0 (length ps)) s ps (replicate (length ps) None)
  = (λ r : St * list Q, (r.1, fmap (M:=list) Some r.2)) <$> each_worker body 0 s ps.
Proof.
  rewrite (each_worker_in_seq body ps [] 0 s) by (by rewrite ?length_replicate).
  by destruct (each_worker body 0 s ps) as [[s' qs]|].
Qed.

(** A phase that is free of races gives, in every order of its workers, what
    it gives in index order. *)
Lemma race_free_phase {St P Q A Addr Sh : Type}
    (cells : St → Addr → option A) (shape : St → Sh)
    (body : nat → St → P → option (St * Q)) (writes : nat → Addr → bool)
    (ps : list P) :
  (∀ s s', (∀ a, cells s a = cells s' a) → s = s') →
  (∀ i j a, i ≠ j → writes i a = true → writes j a = false) →
  (∀ i s p s' q,
     ps !! i = Some p → body i s p = Some (s', q) →
     shape s' = shape s ∧ ∀ a, writes i a = false → cells s' a = cells s a) →
  (∀ i j s s2 p,
     i ≠ j → ps !! i = Some p → ps !! j ≠ None →
     shape s = shape s2 → (∀ a, writes j a = false → cells s a = cells s2 a) →
     option_Forall2 (λ r r2, r.2 = r2.2 ∧ shape r.1 = shape r2.1 ∧
                             ∀ a, writes i a = true → cells r.1 a = cells r2.1 a)
       (body i s p) (body i s2 p)) →
  ∀ (o : list nat) (s : St), o ≡ₚ seq 0 (length ps) →
  each_worker_in body o s ps (replicate (length ps) None)
  = (λ r : St * list Q, (r.1, fmap (M:=list) Some r.2)) <$> each_worker body 0 s ps.
Proof.
  intros Hext Hdis Hframe Huni o s Ho.
  rewrite <- each_worker_in_index_order.
  apply (phase_order_irrelevant cells shape body writes ps Hext Hdis Hframe Huni);
    [done |].
  rewrite Ho. apply NoDup_seq.
Qed.

Section small_scan_races.

Context {T : Type}.
Variable binary_op : T → T → T.
Variable W : nat.
Hypothesis W_int : (Z.of_nat W ≤ 2147483648)%Z.

Lemma seed_race_free (first : nat) (init : T) (o : list nat) (m : list T) :
  o ≡ₚ seq 0 W →
  each_worker_in (small_scan_seed binary_op (Z.of_nat first) init) o m
    (replicate W ()) (replicate W None)
  = (λ r : list T * list T, (r.1, fmap (M:=list) Some r.2)) <$>
      each_worker (small_scan_seed binary_op (Z.of_nat first) init) 0 m
        (replicate W ()).
Proof.
  intros Ho.
  pose proof (race_free_phase (λ (m : list T) (a : nat), m !! a) length
    (small_scan_seed binary_op (Z.of_nat first) init)
    (λ i a, (i =? 0) && (a =? first)) (replicate W ())) as H.
  rewrite length_replicate in H. apply H; clear H; [apply list_eq | | | | done].
  - intros i j a Hij [Hi Ha]%andb_true_iff. apply Nat.eqb_eq in Hi.
    destruct (Nat.eqb_spec j 0); [lia | done].
  - intros i s p s' q [_ Hi]%lookup_replicate Hb.
    unfold small_scan_seed in Hb. rewrite to_int_small in Hb by lia.
    destruct (Nat.eqb_spec i 0) as [-> | Hi0].
    + simpl in Hb.
      destruct (load s (Z.of_nat first + 0)) as [v|]; simpl in Hb; [| done].
      destruct (store s (Z.of_nat first + 0) (binary_op init v)) as [m1|] eqn:Es;
        simpl in Hb; [| done].
      destruct (load m1 _); simplify_eq/=.
      apply store_Some in Es as [Hr ->]. split; [by rewrite length_insert |].
      intros a Ha%Nat.eqb_neq. apply list_lookup_insert_ne. lia.
    + destruct (Z.eqb_spec (Z.of_nat i) 0); [lia |]. simpl in Hb.
      destruct (load s (Z.of_nat first + Z.of_nat i)); simplify_eq/=. done.
  - intros i j s s2 p Hij [_ Hi]%lookup_replicate Hj Hsh Hag.
    unfold small_scan_seed. rewrite to_int_small by lia.
    destruct (Nat.eqb_spec i 0) as [-> | Hi0].
    + assert (s = s2) as <-.
      { apply list_eq. intros a. apply Hag.
        destruct (Nat.eqb_spec j 0); [lia | done]. }
      apply option_Forall2_diag. done.
    + destruct (Z.eqb_spec (Z.of_nat i) 0); [lia |]. simpl.
      rewrite !(load_nat _ _ (first + i)) by lia.
      rewrite <- (Hag (first + i)).
      2: { destruct (Nat.eqb_spec (first + i) first); [lia |]. apply andb_false_r. }
      destruct (s !! (first + i)); simpl; constructor.
      simpl. split; [done |]. split; [done |].
      intros a Ha. destruct (Nat.eqb_spec i 0); [lia | done].
Qed.

Lemma round_race_free (offset : Z) (ping pong : nat) (o : list nat)
    (m : list T) (xs : list T) :
  length xs = W → (0 ≤ offset)%Z →
  ping + W ≤ pong ∨ pong + W ≤ ping →
  o ≡ₚ seq 0 W →
  each_worker_in (small_scan_round binary_op offset (Z.of_nat ping) (Z.of_nat pong))
    o m xs (replicate W None)
  = (λ r : list T * list T, (r.1, fmap (M:=list) Some r.2)) <$>
      each_worker (small_scan_round binary_op offset (Z.of_nat ping) (Z.of_nat pong))
        0 m xs.
Proof.
  intros Hxs Hoff Hsep Ho.
  pose proof (race_free_phase (λ (m : list T) (a : nat), m !! a) length
    (small_scan_round binary_op offset (Z.of_nat ping) (Z.of_nat pong))
    (λ i a, a =? pong + i) xs) as H.
  rewrite Hxs in H. apply H; clear H; [apply list_eq | | | | done].
  - intros i j a Hij Ha%Nat.eqb_eq. apply Nat.eqb_neq. lia.
  - intros i s p s' q Hi%lookup_lt_Some Hb.
    unfold small_scan_round in Hb. rewrite to_int_small in Hb by lia.
    destruct (if (offset <=? Z.of_nat i)%Z then _ else _) as [x'|];
      simpl in Hb; [| done].
    destruct (store s (Z.of_nat pong + Z.of_nat i) x') as [m'|] eqn:Es;
      simplify_eq/=.
    apply store_Some in Es as [Hr ->]. split; [by rewrite length_insert |].
    intros a Ha%Nat.eqb_neq. apply list_lookup_insert_ne. lia.
  - intros i j s s2 p Hij Hi%lookup_lt_Some Hj%not_eq_None_Some%lookup_lt_is_Some_1
      Hsh Hag.
    unfold small_scan_round. rewrite to_int_small by lia.
    assert ((if (offset <=? Z.of_nat i)%Z
             then y ← load s (Z.of_nat ping + to_int (Z.of_nat i - offset));
                  Some (binary_op y p)
             else Some p)
            = (if (offset <=? Z.of_nat i)%Z
               then y ← load s2 (Z.of_nat ping + to_int (Z.of_nat i - offset));
                    Some (binary_op y p)
               else Some p)) as <-.
    { destruct (Z.leb_spec offset (Z.of_nat i)); [| done].
      rewrite to_int_small by lia.
      rewrite !(load_nat _ _ (ping + Z.to_nat (Z.of_nat i - offset))) by lia.
      rewrite (Hag (ping + Z.to_nat (Z.of_nat i - offset))); [done |].
      apply Nat.eqb_neq. lia. }
    destruct (if (offset <=? Z.of_nat i)%Z then _ else _) as [x'|]; simpl;
      [| constructor].
    pose proof (store_same_shape s s2 (Z.of_nat pong + Z.of_nat i) x' Hsh) as Hst.
    inversion Hst as [r r2 (Hl & Hc & _) E1 E2|]; simpl; constructor. simpl.
    split; [done |]. split; [done |].
    intros a Ha%Nat.eqb_eq. subst a.
    by replace (pong + i) with (Z.to_nat (Z.of_nat pong + Z.of_nat i)) by lia.
Qed.

Lemma shift_race_free (ping : Z) (init : T) (o : list nat)
    (m : list T) (xs : list T) :
  length xs = W → o ≡ₚ seq 0 W →
  each_worker_in (small_scan_shift ping init) o m xs (replicate W None)
  = (λ r : list T * list T, (r.1, fmap (M:=list) Some r.2)) <$>
      each_worker (small_scan_shift ping init) 0 m xs.
Proof.
  intros Hxs Ho.
  pose proof (race_free_phase (λ (m : list T) (a : nat), m !! a) length
    (small_scan_shift ping init) (λ _ _, false) xs) as H.
  rewrite Hxs in H. apply H; clear H; [apply list_eq | done | | | done].
  - intros i s p s' q _ Hb. unfold small_scan_shift in Hb.
    destruct (if (to_int (Z.of_nat i) =? 0)%Z then _ else _); by simplify_eq/=.
  - intros i j s s2 p _ _ _ _ Hag.
    assert (s = s2) as <- by (apply list_eq; intros a; by apply Hag).
    by apply option_Forall2_diag.
Qed.

Lemma writeback_race_free (first : nat) (o : list nat) (m : list T) (xs : list T) :
  length xs = W → o ≡ₚ seq 0 W →
  each_worker_in (small_scan_writeback (Z.of_nat first)) o m xs (replicate W None)
  = (λ r : list T * list (), (r.1, fmap (M:=list) Some r.2)) <$>
      each_worker (small_scan_writeback (Z.of_nat first)) 0 m xs.
Proof.
  intros Hxs Ho.
  pose proof (race_free_phase (λ (m : list T) (a : nat), m !! a) length
    (small_scan_writeback (Z.of_nat first)) (λ i a, a =? first + i) xs) as H.
  rewrite Hxs in H. apply H; clear H; [apply list_eq | | | | done].
  - intros i j a Hij Ha%Nat.eqb_eq. apply Nat.eqb_neq. lia.
  - intros i s p s' q Hi%lookup_lt_Some Hb.
    unfold small_scan_writeback in Hb. rewrite to_int_small in Hb by lia.
    destruct (store s (Z.of_nat first + Z.of_nat i) p) as [m'|] eqn:Es;
      simplify_eq/=.
    apply store_Some in Es as [Hr ->]. split; [by rewrite length_insert |].
    intros a Ha%Nat.eqb_neq. apply list_lookup_insert_ne. lia.
  - intros i j s s2 p Hij Hi%lookup_lt_Some _ Hsh Hag.
    unfold small_scan_writeback. rewrite to_int_small by lia.
    pose proof (store_same_shape s s2 (Z.of_nat first + Z.of_nat i) p Hsh) as Hst.
    inversion Hst as [r r2 (Hl & Hc & _) E1 E2|]; simpl; constructor. simpl.
    split; [done |]. split; [done |].
    intros a Ha%Nat.eqb_eq. subst a.
    by replace (first + i) with (Z.to_nat (Z.of_nat first + Z.of_nat i)) by lia.
Qed.

End small_scan_races.


Section tile_races.

Context {I M : Type}.
Variable F : instantiation I M.
Variables W G : nat.
Hypothesis G_pos : 0 < G.
Hypothesis WG_int : (Z.of_nat (W * G) < 2147483648)%Z.

Lemma cells_of_sums (b b' : scan_buffer I M) (t : nat) :
  buffer_cells b (inl t) = buffer_cells b' (inl t) → sums b !! t = sums b' !! t.
Proof. simpl. destruct (sums b !! t), (sums b' !! t); simpl; congruence. Qed.

Lemma cells_of_stage (b b' : scan_buffer I M) (t : nat) :
  buffer_cells b (inr t) = buffer_cells b' (inr t) → stage b !! t = stage b' !! t.
Proof. simpl. destruct (stage b !! t), (stage b' !! t); simpl; congruence. Qed.

Lemma buffer_cells_ext (b b' : scan_buffer I M) :
  (∀ a, buffer_cells b a = buffer_cells b' a) → b = b'.
Proof.
  intros H. assert (sums b = sums b' ∧ stage b = stage b') as [Hsu Hst].
  { split; apply list_eq; intros i;
      [apply cells_of_sums, H | apply cells_of_stage, H]. }
  destruct b, b'. simpl in Hsu, Hst. by subst.
Qed.

Lemma worker_in_int (i : nat) : i < W → (Z.of_nat i < 2147483648)%Z.
Proof. intros Hi. nia. Qed.

Lemma slice_in_int (i k : nat) :
  i < W → k < G → (Z.of_nat (G * i + k) < 2147483648)%Z.
Proof. intros Hi Hk. assert (G * i + k < W * G) by nia. lia. Qed.

Lemma accumulate_race_free (p : Z) (o : list nat) (b : scan_buffer I M) :
  o ≡ₚ seq 0 W →
  each_worker_in (accumulate F G p) o b (replicate W ()) (replicate W None)
  = (λ r : scan_buffer I M * list (worker_locals I),
       (r.1, fmap (M:=list) Some r.2)) <$>
      each_worker (accumulate F G p) 0 b (replicate W ()).
Proof.
  intros Ho.
  pose proof (race_free_phase buffer_cells
    (λ b : scan_buffer I M, (length (sums b), length (stage b)))
    (accumulate F G p)
    (λ i a, match a with inl t => t =? i | inr _ => false end)
    (replicate W ())) as H.
  rewrite length_replicate in H.
  apply H; clear H; [apply buffer_cells_ext | | | | done].
  - intros i j [t|t] Hij Ha; [| done]. apply Nat.eqb_eq in Ha.
    apply Nat.eqb_neq. lia.
  - intros i s u s' q [_ Hi%worker_in_int]%lookup_replicate Hb.
    unfold accumulate in Hb. rewrite (to_int_small (Z.of_nat i)) in Hb by lia.
    destruct (for_range 0 G _ _) as [[x li]|]; simpl in Hb; [| done].
    destruct (Z.max 0 _ =? 0)%Z; simpl in Hb.
    + simplify_eq. simpl. split; [done |]. by intros [t|t].
    + destruct x as [xv|]; simpl in Hb; [| done].
      destruct (store (sums s) (Z.of_nat i) _) as [su|] eqn:Es; simplify_eq/=.
      apply store_Some in Es as [Hr ->]. rewrite length_insert.
      split; [done |]. intros [t|t] Ha; [| done]. simpl. f_equal.
      apply Nat.eqb_neq in Ha. apply list_lookup_insert_ne. lia.
  - intros i j s s2 u Hij [_ Hi%worker_in_int]%lookup_replicate _ Hsh Hag.
    assert (stage s = stage s2) as Hst.
    { apply list_eq. intros t. by apply cells_of_stage, (Hag (inr t)). }
    injection Hsh as Hlsu _.
    unfold accumulate. rewrite (to_int_small (Z.of_nat i)) by lia.
    rewrite <- Hst.
    destruct (for_range 0 G _ _) as [[x li]|]; simpl; [| constructor].
    destruct (Z.max 0 _ =? 0)%Z; simpl.
    + constructor. simpl. split; [done |]. split; [by rewrite Hlsu |].
      intros [t|t] Ha; [| done]. apply Nat.eqb_eq in Ha. subst t.
      apply (Hag (inl i)). apply Nat.eqb_neq. lia.
    + destruct x as [xv|]; simpl; [| constructor].
      pose proof (store_same_shape (sums s) (sums s2) (Z.of_nat i)
                    (to_intermediate F xv) Hlsu) as Hs.
      inversion Hs as [r r2 (Hl & Hc & _) E1 E2|]; simpl; constructor. simpl.
      split; [done |]. split; [by rewrite Hl |].
      intros [t|t] Ha; [| done]. apply Nat.eqb_eq in Ha. subst t.
      rewrite Nat2Z.id in Hc. simpl. by rewrite Hc.
Qed.

Lemma slices_disjoint (i j t : nat) :
  i ≠ j → G * i ≤ t < G * i + G → ¬ (G * j ≤ t < G * j + G).
Proof. intros Hij Hi Hj. destruct (Nat.lt_total i j) as [?|[?|?]]; nia. Qed.

Lemma local_scan_race_free (inclusive : bool) (p : Z) (o : list nat)
    (b : scan_buffer I M) (ls : list (worker_locals I)) :
  length ls = W →
  (∀ i l, ls !! i = Some l → local_offset l = Z.of_nat (G * i)) →
  o ≡ₚ seq 0 W →
  each_worker_in (local_scan F G inclusive p) o b ls (replicate W None)
  = (λ r : scan_buffer I M * list (), (r.1, fmap (M:=list) Some r.2)) <$>
      each_worker (local_scan F G inclusive p) 0 b ls.
Proof.
  intros Hls Hoff Ho.
  pose proof (race_free_phase buffer_cells
    (λ b : scan_buffer I M, (length (sums b), length (stage b)))
    (local_scan F G inclusive p)
    (λ i a, match a with
            | inl _ => false
            | inr t => (G * i <=? t) && (t <? G * i + G)
            end) ls) as H.
  rewrite Hls in H. apply H; clear H; [apply buffer_cells_ext | | | | done].
  - intros i j [t|t] Hij Ha; [done |].
    apply andb_true_iff in Ha as [H1%Nat.leb_le H2%Nat.ltb_lt].
    pose proof (slices_disjoint i j t Hij (conj H1 H2)) as Hd.
    destruct (Nat.leb_spec (G * j) t), (Nat.ltb_spec t (G * j + G)); try done.
    exfalso. apply Hd. lia.
  - intros i s l s' q Hl Hb.
    pose proof (lookup_lt_Some _ _ _ Hl) as Hi. rewrite Hls in Hi.
    pose proof (Hoff i l Hl) as Ho'. unfold local_scan in Hb.
    destruct (if (local_size l =? 0)%Z then _ else _) as [x|]; simpl in Hb;
      [| done].
    destruct (for_range 0 G _ _) as [[x' results]|] eqn:Ef; simpl in Hb;
      [| done].
    injection Hb as <- _.
    apply (for_range_keeps _
      (λ st, length st.2 = length (stage s) ∧
             ∀ t, ¬ (G * i ≤ t < G * i + G) → st.2 !! t = stage s !! t)) in Ef.
    + simpl in Ef |- *. destruct Ef as [Hlen Hout]. split; [by rewrite Hlen |].
      intros [t|t] Ha; [done |]. simpl. f_equal. apply Hout.
      intros [?%Nat.leb_le ?%Nat.ltb_lt]. rewrite andb_false_iff in Ha.
      destruct Ha; congruence.
    + nia.
    + done.
    + intros j [x0 r0] [x1 r1] Hj [Hlen Hout] Hstep. simpl in Hlen, Hout |- *.
      unfold local_scan_step in Hstep. rewrite Ho' in Hstep.
      pose proof (slice_in_int i j Hi ltac:(lia)) as Hint.
      rewrite to_int_small in Hstep by lia.
      destruct (_ <? p)%Z; [| by injection Hstep as _ <-].
      destruct (if inclusive then _ else _) as [[xv1|]|]; simpl in Hstep;
        try done.
      destruct (store r0 _ _) as [r'|] eqn:Es; simpl in Hstep; [| done].
      destruct (if negb inclusive then _ else _); simpl in Hstep; [| done].
      injection Hstep as _ <-.
      apply store_Some in Es as [Hr ->]. rewrite length_insert.
      split; [done |]. intros t Ht.
      rewrite list_lookup_insert_ne by lia. by apply Hout.
  - intros i j s s2 l Hij Hl _ Hsh Hag.
    assert (sums s = sums s2) as Hsu.
    { apply list_eq. intros t. by apply cells_of_sums, (Hag (inl t)). }
    injection Hsh as _ Hlst.
    unfold local_scan. rewrite <- Hsu.
    destruct (if (local_size l =? 0)%Z then _ else _) as [x|]; simpl;
      [| constructor].
    set (RS := λ st st2 : option I * list (I + M),
           st.1 = st2.1 ∧ length st.2 = length st2.2 ∧
           ∀ t, G * i ≤ t < G * i + G → st.2 !! t = st2.2 !! t).
    set (step := local_scan_step F inclusive (local_inputs l) p
                   (local_offset l)).
    assert (∀ z st st2, RS st st2 → option_Forall2 RS (step z st) (step z st2))
      as Hstep.
    { intros z [x0 r0] [x0' r0'] (Hx & Hlen & Hin). simpl in Hx, Hlen, Hin.
      subst x0'. unfold step, local_scan_step.
      destruct (_ <? p)%Z; [| by constructor].
      destruct (if inclusive then _ else _) as [[xv1|]|]; simpl;
        try constructor.
      pose proof (store_same_shape r0 r0' (to_int (local_offset l + z))
                    (inr (to_intermediate F xv1)) Hlen) as Hs.
      inversion Hs as [r r' (Hl' & _ & Hk) E1 E2|]; simpl; [| constructor].
      destruct (if negb inclusive then _ else _); simpl; constructor.
      split; [done |]. split; [done |]. intros t Ht. by apply Hk, Hin. }
    assert (RS (x, stage s) (x, stage s2)) as Hinit.
    { split; [done |]. split; [done |]. intros t Ht.
      apply cells_of_stage, (Hag (inr t)).
      pose proof (slices_disjoint i j t Hij Ht) as Hd.
      destruct (Nat.leb_spec (G * j) t), (Nat.ltb_spec t (G * j + G)); try done.
      exfalso. apply Hd. lia. }
    pose proof (for_range_rel RS step step Hstep G 0 _ _ Hinit) as Hfr.
    inversion Hfr as [[x1 r1] [x2 r2] (Hx & Hlen & Hin) E1 E2|]; simpl;
      constructor. simpl in Hx, Hlen, Hin |- *.
    split; [done |]. split; [by rewrite Hlen |].
    intros [t|t] Ha; [done |]. simpl. f_equal.
    apply andb_true_iff in Ha as [H1%Nat.leb_le H2%Nat.ltb_lt]. apply Hin. lia.
Qed.

(** The registers that the accumulate phase leaves hold each worker's
    offset into the tile. *)
Lemma accumulate_offsets (p : Z) (b b1 : scan_buffer I M)
    (ls : list (worker_locals I)) :
  each_worker (accumulate F G p) 0 b (replicate W ()) = Some (b1, ls) →
  ∀ i l, ls !! i = Some l → local_offset l = Z.of_nat (G * i).
Proof.
  intros Hrun i l Hl.
  destruct (each_worker_results _ _ _ _ _ _ Hrun i l Hl)
    as (u & s0 & s1 & [_ Hi]%lookup_replicate & Hb).
  pose proof (slice_in_int i 0 Hi G_pos). pose proof (worker_in_int i Hi).
  simpl in Hb. unfold accumulate in Hb.
  destruct (for_range 0 G _ _) as [[x li]|]; simpl in Hb; [| done].
  destruct (if (_ =? 0)%Z then _ else _); simpl in Hb; [| done].
  injection Hb as _ <-. simpl.
  rewrite (to_int_small (Z.of_nat i)) by lia.
  rewrite to_int_small by lia. lia.
Qed.

End tile_races.

Lemma each_worker_length {St P Q : Type} (body : nat → St → P → option (St * Q))
    (ps : list P) :
  ∀ (t : nat) (s s' : St) (qs : list Q),
  each_worker body t s ps = Some (s', qs) → length qs = length ps.
Proof.
  induction ps as [|p ps IH]; intros t s s' qs Hrun; simpl in Hrun.
  - by simplify_eq.
  - destruct (body t s p) as [[s1 q1]|]; simpl in Hrun; [| done].
    destruct (each_worker body (S t) s1 ps) as [[s2 qs2]|] eqn:Er;
      simplify_eq/=.
    f_equal. by eapply IH.
Qed.

(** X9.  The phases of [small_inplace_exclusive_scan_with_buffer] are free of
    races: the seed phase, a round of the doubling loop that reads the [W]
    cells at [ping] and writes the [W] cells at [pong], the shift and the
    write-back each leave the same array and the same registers (or fault
    alike) in whatever order the [W] workers of the group take their turns,
    provided the two regions of a round do not overlap and [offset] is not
    negative. *)
Theorem small_scan_phases_are_race_free {T : Type} (binary_op : T → T → T)
    (W first ping pong : nat) (init : T) (offset : Z)
    (m : list T) (xs : list T) (o : list nat) :
  (Z.of_nat W ≤ 2147483648)%Z →
  length xs = W →
  (0 ≤ offset)%Z →
  ping + W ≤ pong ∨ pong + W ≤ ping →
  o ≡ₚ seq 0 W →
  each_worker_in (small_scan_seed binary_op (Z.of_nat first) init) o m
    (replicate W ()) (replicate W None)
  = (λ r : list T * list T, (r.1, fmap (M:=list) Some r.2)) <$>
      each_worker (small_scan_seed binary_op (Z.of_nat first) init) 0 m
        (replicate W ()) ∧
  each_worker_in (small_scan_round binary_op offset (Z.of_nat ping) (Z.of_nat pong))
    o m xs (replicate W None)
  = (λ r : list T * list T, (r.1, fmap (M:=list) Some r.2)) <$>
      each_worker (small_scan_round binary_op offset (Z.of_nat ping) (Z.of_nat pong))
        0 m xs ∧
  each_worker_in (small_scan_shift (Z.of_nat ping) init) o m xs (replicate W None)
  = (λ r : list T * list T, (r.1, fmap (M:=list) Some r.2)) <$>
      each_worker (small_scan_shift (Z.of_nat ping) init) 0 m xs ∧
  each_worker_in (small_scan_writeback (Z.of_nat first)) o m xs (replicate W None)
  = (λ r : list T * list (), (r.1, fmap (M:=list) Some r.2)) <$>
      each_worker (small_scan_writeback (Z.of_nat first)) 0 m xs.
Proof.
  intros HW Hxs Hoff Hsep Ho.
  split; [by apply seed_race_free |].
  split; [by apply round_race_free |].
  split; [by apply shift_race_free |].
  by apply writeback_race_free.
Qed.

(** Why the rounds need the buffer: a round that writes where it reads
    ([ping = pong]) does depend on the order of the workers. *)
Example in_place_round_depends_on_the_order :
  each_worker_in (small_scan_round Z.add 1 0 0) [0; 1; 2]
    [1; 2; 3]%Z [1; 2; 3]%Z (replicate 3 None)
  = Some ([1; 3; 6]%Z, [Some 1; Some 3; Some 6]%Z) ∧
  each_worker_in (small_scan_round Z.add 1 0 0) [2; 1; 0]
    [1; 2; 3]%Z [1; 2; 3]%Z (replicate 3 None)
  = Some ([1; 3; 5]%Z, [Some 1; Some 3; Some 5]%Z).
Proof. split; reflexivity. Qed.

(** X10.  The two phases of a pass of the tile loop of [scan_with_buffer]
    are free of races: the accumulate phase, and the scan phase run on the
    registers that the accumulate phase leaves, each give the same buffer
    and the same registers (or fault alike) in whatever order the [W]
    workers take their turns. *)
Theorem tile_phases_are_race_free {I M : Type} (F : instantiation I M)
    (W G : nat) (inclusive : bool) (p : Z) (b0 : scan_buffer I M) (o : list nat) :
  0 < G →
  (Z.of_nat (W * G) < 2147483648)%Z →
  o ≡ₚ seq 0 W →
  each_worker_in (accumulate F G p) o b0 (replicate W ()) (replicate W None)
  = (λ r : scan_buffer I M * list (worker_locals I),
       (r.1, fmap (M:=list) Some r.2)) <$>
      each_worker (accumulate F G p) 0 b0 (replicate W ()) ∧
  ∀ (b1 b : scan_buffer I M) (ls : list (worker_locals I)),
    each_worker (accumulate F G p) 0 b0 (replicate W ()) = Some (b1, ls) →
    each_worker_in (local_scan F G inclusive p) o b ls (replicate W None)
    = (λ r : scan_buffer I M * list (), (r.1, fmap (M:=list) Some r.2)) <$>
        each_worker (local_scan F G inclusive p) 0 b ls.
Proof.
  intros HG HWG Ho. split; [by apply accumulate_race_free |].
  intros b1 b ls Hacc. apply local_scan_race_free; try done.
  - apply each_worker_length in Hacc. by rewrite length_replicate in Hacc.
  - by eapply accumulate_offsets.
Qed.


Section no_grain.

Context {I M : Type}.
Variable F : instantiation I M.

Lemma accumulate_no_grain (p : Z) (i : nat) (b : scan_buffer I M) (u : ()) :
  ∃ l, accumulate F 0 p i b u = Some (b, l) ∧ local_size l = 0%Z.
Proof.
  unfold accumulate. cbn [for_range mbind option_bind].
  change (to_int (Z.of_nat 0)) with 0%Z.
  set (size := Z.max 0 _).
  assert (size = 0%Z) as -> by (unfold size; lia).
  cbn [Z.eqb mbind option_bind]. destruct b as [su st]. simpl.
  eexists. split; [done |]. simpl. lia.
Qed.

Lemma local_scan_no_grain (inclusive : bool) (p : Z) (i : nat)
    (b : scan_buffer I M) (l : worker_locals I) :
  local_size l = 0%Z → local_scan F 0 inclusive p i b l = Some (b, ()).
Proof.
  intros Hl. unfold local_scan. rewrite Hl.
  cbn [Z.eqb for_range mbind option_bind]. by destruct b.
Qed.

Lemma tile_no_grain (W : nat) (inclusive : bool) (src : list I) (last : Z)
    (st : loop_state I M) :
  0 < W → (Z.of_nat W ≤ 2147483648)%Z →
  W + W ≤ length (sums (buffer st)) →
  ∃ st', tile F W 0 inclusive src last st = Some st' ∧
    first st' = first st ∧ result st' = result st ∧ dest st' = dest st ∧
    stage (buffer st') = stage (buffer st) ∧
    length (sums (buffer st')) = length (sums (buffer st)).
Proof.
  intros HW HWint Hsums. unfold tile.
  rewrite Z.mul_0_r. change (to_int 0) with 0%Z.
  set (p := Z.min 0 _). assert (Z.to_nat p = 0) as Hp by (unfold p; lia).
  unfold copy_n. rewrite Hp. cbn [copy_loop mbind option_bind].
  destruct (each_worker_inv (accumulate F 0 p)
              (λ _ s, s = {| sums := sums (buffer st); stage := stage (buffer st) |})
              (λ _ _ l, local_size l = 0%Z) (replicate W ()) 0 _ eq_refl)
    as (b1 & ls & -> & -> & Hls & Hzero).
  { intros k u s0 _ ->.
    destruct (accumulate_no_grain p (0 + k) {| sums := sums (buffer st);
                stage := stage (buffer st) |} u) as (l & -> & Hl).
    by exists {| sums := sums (buffer st); stage := stage (buffer st) |}, l. }
  rewrite length_replicate in Hls. cbn [mbind option_bind sums stage].
  destruct (small_scan_returns (binary_op F) W 0 W (sums (buffer st)) (carry_in st))
    as (sums2 & total & Hsmall & Hlen); [done | done | lia | lia | left; lia |].
  change (Z.of_nat 0) with 0%Z in Hsmall. rewrite Hsmall.
  cbn [mbind option_bind].
  destruct (each_worker_inv (local_scan F 0 inclusive p)
              (λ _ s, s = {| sums := sums2; stage := stage (buffer st) |})
              (λ _ _ _, True) ls 0 _ eq_refl)
    as (b3 & us & -> & -> & _).
  { intros k l s0 Hk ->.
    exists {| sums := sums2; stage := stage (buffer st) |}, ().
    split; [| done]. apply local_scan_no_grain.
    apply (Hzero k () l); [| done].
    apply lookup_replicate_2. apply lookup_lt_Some in Hk. lia. }
  cbn [mbind option_bind].
  eexists. split; [done |]. simpl. repeat split; lia || done.
Qed.

Lemma tile_passes_no_grain (W : nat) (inclusive : bool) (src : list I) (last : Z)
    (k : nat) :
  0 < W → (Z.of_nat W ≤ 2147483648)%Z →
  ∀ st : loop_state I M,
  (first st < last)%Z → W + W ≤ length (sums (buffer st)) →
  ∃ st', tile_passes F W 0 k inclusive src last st = Some st' ∧
    first st' = first st ∧ result st' = result st ∧ dest st' = dest st ∧
    stage (buffer st') = stage (buffer st).
Proof.
  intros HW HWint. induction k as [|k IH]; intros st Hfirst Hsums; simpl.
  - by exists st.
  - destruct (Z.ltb_spec (first st) last); [| lia].
    destruct (tile_no_grain W inclusive src last st)
      as (st1 & -> & Hf & Hr & Hd & Hs & Hl); [done.. |].
    cbn [mbind option_bind].
    destruct (IH st1) as (st' & -> & Hf' & Hr' & Hd' & Hs'); [lia | lia |].
    exists st'. split; [done |]. repeat split; congruence.
Qed.

(** X12.  Without a grain ([grainsize = 0]) every pass of the tile loop of
    [scan_with_buffer] over a non-empty range runs to its end without a
    fault and leaves [first], [result], the destination and the staging
    area as they were: the loop makes any number of passes and gets
    nowhere. *)
Theorem no_grain_passes_do_nothing (W : nat) (inclusive : bool) (src : list I)
    (dst : list M) (r : Z) (init : M) (b : scan_buffer I M) (k : nat) :
  0 < W → (Z.of_nat W ≤ 2147483648)%Z →
  W + W ≤ length (sums b) →
  src ≠ [] →
  ∃ st,
    tile_passes F W 0 k inclusive src (Z.of_nat (length src))
      {| first := 0; result := r; carry_in := init; buffer := b; dest := dst |}
    = Some st ∧
    first st = 0%Z ∧ result st = r ∧ dest st = dst ∧ stage (buffer st) = stage b.
Proof.
  intros HW HWint Hsums Hsrc.
  apply (tile_passes_no_grain W inclusive src (Z.of_nat (length src)) k HW HWint
           {| first := 0; result := r; carry_in := init; buffer := b; dest := dst |});
    [| done].
  destruct src; [done | simpl; lia].
Qed.

End no_grain.

(** ** The scenarios of the spec *)

Example scenario_inclusive :
  inclusive_scan (same_type Z.add) 2 2 300
    {| is_shared := true;
       block := {| sums := replicate 4 77%Z; stage := replicate 4 (inr 88%Z) |} |}
    [1; 2; 3; 4; 5]%Z (replicate 5 0%Z) 0 0%Z
  = Some [1; 3; 6; 10; 15]%Z.
Proof. reflexivity. Qed.

Example scenario_exclusive :
  exclusive_scan (same_type Z.add) 2 2 300
    {| is_shared := true;
       block := {| sums := replicate 4 77%Z; stage := replicate 4 (inr 88%Z) |} |}
    [1; 2; 3; 4; 5]%Z (replicate 5 0%Z) 0 0%Z
  = Some [0; 1; 3; 6; 10]%Z.
Proof. reflexivity. Qed.

(** Two tiles of ones from 100: the last slot holds [100 + 2*W*G - 1]. *)
Example scenario_two_tiles :
  (exclusive_scan (same_type Z.add) 2 3 300
     {| is_shared := false;
        block := {| sums := replicate 4 77%Z; stage := replicate 6 (inl 88%Z) |} |}
     (replicate 12 1%Z) (replicate 12 0%Z) 0 100%Z) ≫= (.!! 11)
  = Some (100 + 2 * 2 * 3 - 1)%Z.
Proof. reflexivity. Qed.

(** A buffer too small for the sums is a fault. *)
Example scenario_short_buffer :
  inclusive_scan (same_type Z.add) 2 2 300
    {| is_shared := true;
       block := {| sums := replicate 3 77%Z; stage := replicate 4 (inr 88%Z) |} |}
    [1; 2; 3; 4; 5]%Z (replicate 5 0%Z) 0 0%Z
  = None.
Proof. reflexivity. Qed.

(** On the partial last tile of five elements in tiles of four, the stale
    slot [sums[1]] of the idle worker reaches the total of the pass, and
    nothing else. *)
Example stale_sum_reaches_the_total :
  let run (stale : Z) :=
    tile (same_type Z.add) 2 2 true [1; 2; 3; 4; 5]%Z 5
      {| first := 4; result := 4; carry_in := 10%Z;
         buffer := {| sums := [0; stale; 3; 1]%Z;
                      stage := inr <$> [1; 3; 6; 10]%Z |};
         dest := [1; 3; 6; 10; 0]%Z |} in
  carry_in <$> run 1%Z = Some 16%Z ∧ carry_in <$> run 77%Z = Some 92%Z ∧
  dest <$> run 1%Z = Some [1; 3; 6; 10; 15]%Z ∧
  dest <$> run 77%Z = Some [1; 3; 6; 10; 15]%Z.
Proof. repeat split. Qed.

(** Truth values of integers under [thrust::logical_or<bool>]: the
    conversions lose nothing. *)
Example scenario_logical_or :
  inclusive_scan integers_under_logical_or 2 2 300
    {| is_shared := true;
       block := {| sums := replicate 4 true; stage := replicate 4 (inl 5%Z) |} |}
    [0; 0; 3; 0; 0]%Z (replicate 5 false) 0 false
  = Some [false; false; true; true; true].
Proof. reflexivity. Qed.



Lemma integer_sum_assoc : Assoc (=) (binary_op bytes_under_int_plus).
Proof. intros x y z. cbn. lia. Qed.

(** ** Where the conversions lose something

    [unsigned char] elements under [thrust::plus<int>]: the sums are kept
    in [int], and what passes through [x] is reduced modulo 256. *)






(** ** The theorems at concrete inputs *)



(** Four workers, a carry-in of 100, and an auxiliary array that holds
    anything. *)
Lemma small_scan_total_and_prefixes_witness :
  ∃ m' y,
    small_inplace_exclusive_scan_with_buffer Z.add (Z.of_nat 4) 4
      [1; 2; 3; 4; 90; 91; 92; 93]%Z (Z.of_nat 0) 100%Z (Z.of_nat 4)
    = Some (m', (100 + y)%Z) ∧
    fold Z.add (take 4 (drop 0 [1; 2; 3; 4; 90; 91; 92; 93]%Z)) = Some y ∧
    m' !! 0 = Some 100%Z ∧
    ∀ i, 0 < i → i < 4 →
      ∃ z, fold Z.add (take i (take 4 (drop 0 [1; 2; 3; 4; 90; 91; 92; 93]%Z))) = Some z ∧
           m' !! (0 + i) = Some (100 + z)%Z.
Proof.
  apply (small_scan_total_and_prefixes Z.add 4 0 4
           [1; 2; 3; 4; 90; 91; 92; 93]%Z 100%Z).
  - lia.
  - simpl. lia.
  - simpl. lia.
  - simpl. lia.
  - left. lia.
Defined.





(** The last pass over five [unsigned char] elements in tiles of four under
    [thrust::plus<int>], from two scratch buffers that differ everywhere. *)
Lemma stale_sums_stay_out_of_the_output_witness :
  (∀ (b : scan_buffer Z Z) (tl : list Z),
     capacity 2 2 b → length tl = 5 - 4 →
     (∀ j, j < length tl → stage b !! j = inl <$> tl !! j) →
     ∃ b' ls,
       each_worker (accumulate bytes_under_int_plus 2 (Z.of_nat (5 - 4))) 0 b
         (replicate 2 ()) = Some (b', ls) ∧
       ∀ t, 5 - 4 ≤ 2 * t → sums b' !! t = sums b !! t) ∧
  ∃ st1' st2',
    tile bytes_under_int_plus 2 2 true [200; 100; 50; 1; 7]%Z (Z.of_nat 5)
      {| first := 4; result := 4; carry_in := 95%Z;
         buffer := {| sums := [0; 44; 51; 95; 3; 2]%Z;
                      stage := inr <$> [200; 44; 94; 95]%Z |};
         dest := [200; 44; 94; 95; 0]%Z |} = Some st1' ∧
    tile bytes_under_int_plus 2 2 true [200; 100; 50; 1; 7]%Z (Z.of_nat 5)
      {| first := 4; result := 4; carry_in := 95%Z;
         buffer := {| sums := replicate 4 77%Z; stage := replicate 4 (inl 88%Z) |};
         dest := [200; 44; 94; 95; 0]%Z |} = Some st2' ∧
    dest st1' = dest st2' ∧
    (Z.of_nat 5 ≤ first st1')%Z ∧ (Z.of_nat 5 ≤ first st2')%Z.
Proof.
  apply (stale_sums_stay_out_of_the_output bytes_under_int_plus
           (Assoc0 := integer_sum_assoc) true 2 2 [200; 100; 50; 1; 7]%Z
           {| first := 4; result := 4; carry_in := 95%Z;
              buffer := {| sums := [0; 44; 51; 95; 3; 2]%Z;
                           stage := inr <$> [200; 44; 94; 95]%Z |};
              dest := [200; 44; 94; 95; 0]%Z |}
           {| first := 4; result := 4; carry_in := 95%Z;
              buffer := {| sums := replicate 4 77%Z;
                           stage := replicate 4 (inl 88%Z) |};
              dest := [200; 44; 94; 95; 0]%Z |} 4 4).
  - unfold representable. simpl. lia.
  - unfold capacity. simpl. lia.
  - unfold capacity. simpl. lia.
  - reflexivity.
  - reflexivity.
  - reflexivity.
  - reflexivity.
  - reflexivity.
  - reflexivity.
  - simpl. lia.
  - simpl. lia.
  - simpl. lia.
Defined.

(** ** The further properties at concrete inputs *)

(** Subtraction, which is not associative, with the absolute value as the
    conversion of line 184. *)
Lemma scans_are_safe_for_every_operation_witness :
  ∃ inc exc,
    inclusive_scan
      {| binary_op := Z.sub; conditional_op_x := Z.sub; conditional_x := id;
         binary_op_x := Z.sub; to_intermediate := id; to_input := Z.abs |}
      2 3 100
      {| is_shared := true;
         block := {| sums := replicate 4 77%Z; stage := replicate 6 (inr 88%Z) |} |}
      [1; 2; 3; 4; 5; 6; 7]%Z (replicate 9 0%Z) (Z.of_nat 1) 100%Z = Some inc ∧
    exclusive_scan
      {| binary_op := Z.sub; conditional_op_x := Z.sub; conditional_x := id;
         binary_op_x := Z.sub; to_intermediate := id; to_input := Z.abs |}
      2 3 100
      {| is_shared := true;
         block := {| sums := replicate 4 77%Z; stage := replicate 6 (inr 88%Z) |} |}
      [1; 2; 3; 4; 5; 6; 7]%Z (replicate 9 0%Z) (Z.of_nat 1) 100%Z = Some exc ∧
    length inc = length (replicate 9 0%Z) ∧ length exc = length (replicate 9 0%Z) ∧
    ∀ i, ¬ (1 ≤ i < 1 + length [1; 2; 3; 4; 5; 6; 7]%Z) →
         inc !! i = replicate 9 0%Z !! i ∧ exc !! i = replicate 9 0%Z !! i.
Proof.
  apply (scans_are_safe_for_every_operation
           {| binary_op := Z.sub; conditional_op_x := Z.sub; conditional_x := id;
              binary_op_x := Z.sub; to_intermediate := id; to_input := Z.abs |}
           2 3 100
           {| is_shared := true;
              block := {| sums := replicate 4 77%Z;
                          stage := replicate 6 (inr 88%Z) |} |}
           [1; 2; 3; 4; 5; 6; 7]%Z (replicate 9 0%Z) 1 100%Z).
  - unfold representable. simpl. lia.
  - unfold capacity. simpl. lia.
  - simpl. lia.
Defined.

Lemma seedless_scan_is_safe_for_every_operation_witness :
  ∃ dst',
    inclusive_scan_seedless Z.sub 2 3 100
      {| is_shared := false;
         block := {| sums := replicate 4 77%Z; stage := replicate 6 (inr 88%Z) |} |}
      [1; 2; 3; 4; 5; 6; 7]%Z (replicate 9 0%Z) (Z.of_nat 1)
    = Some (dst', Z.of_nat (1 + length [1; 2; 3; 4; 5; 6; 7]%Z)) ∧
    length dst' = length (replicate 9 0%Z) ∧
    dst' !! 1 = Some 1%Z ∧
    ∀ i, ¬ (1 ≤ i < 1 + length [1; 2; 3; 4; 5; 6; 7]%Z) →
         dst' !! i = replicate 9 0%Z !! i.
Proof.
  apply (seedless_scan_is_safe_for_every_operation Z.sub 2 3 100
           {| is_shared := false;
              block := {| sums := replicate 4 77%Z;
                          stage := replicate 6 (inr 88%Z) |} |}
           [1; 2; 3; 4; 5; 6; 7]%Z (replicate 9 0%Z) 1 1%Z [2; 3; 4; 5; 6; 7]%Z).
  - unfold representable. simpl. lia.
  - unfold capacity. simpl. lia.
  - simpl. lia.
  - reflexivity.
Defined.

Lemma small_scan_is_safe_for_every_operation_witness :
  ∃ m' total,
    small_inplace_exclusive_scan_with_buffer Z.sub (Z.of_nat 3) 3
      [9; 1; 2; 3; 0; 0; 0; 9]%Z (Z.of_nat 1) 10%Z (Z.of_nat 4) = Some (m', total) ∧
    length m' = length [9; 1; 2; 3; 0; 0; 0; 9]%Z ∧
    m' !! 1 = Some 10%Z ∧
    ∀ i, ¬ (1 ≤ i < 1 + 3) → ¬ (4 ≤ i < 4 + 3) →
         m' !! i = [9; 1; 2; 3; 0; 0; 0; 9]%Z !! i.
Proof.
  apply (small_scan_is_safe_for_every_operation Z.sub 3 1 4
           [9; 1; 2; 3; 0; 0; 0; 9]%Z 10%Z).
  - lia.
  - simpl. lia.
  - simpl. lia.
  - simpl. lia.
  - left. lia.
Defined.


(** The empty list is a left identity of concatenation. *)
Lemma seeded_with_left_identity_witness :
  inclusive_scan_seedless (@app nat) 2 2 100
    {| is_shared := true;
       block := {| sums := replicate 4 [7]; stage := replicate 4 (inr [8]) |} |}
    [[1]; [2]; [3]; [4]; [5]] (replicate 6 [9]) (Z.of_nat 1)
  = (λ d, (d, Z.of_nat (1 + length [[1]; [2]; [3]; [4]; [5]])))
      <$> inclusive_scan (same_type (@app nat)) 2 2 100
            {| is_shared := false;
               block := {| sums := replicate 4 [5];
                           stage := replicate 4 (inl [6]) |} |}
            [[1]; [2]; [3]; [4]; [5]] (replicate 6 [9]) (Z.of_nat 1) [].
Proof.
  apply (seeded_with_left_identity (@app nat) 2 2 100
           {| is_shared := true;
              block := {| sums := replicate 4 [7];
                          stage := replicate 4 (inr [8]) |} |}
           {| is_shared := false;
              block := {| sums := replicate 4 [5];
                          stage := replicate 4 (inl [6]) |} |}
           [[1]; [2]; [3]; [4]; [5]] (replicate 6 [9]) 1 []).
  - unfold representable. simpl. lia.
  - unfold capacity. simpl. lia.
  - unfold capacity. simpl. lia.
  - simpl. lia.
  - discriminate.
  - reflexivity.
Defined.


(** Three workers taking their turns in the order 2, 0, 1. *)
Lemma small_scan_phases_are_race_free_witness :
  each_worker_in (small_scan_seed Z.add (Z.of_nat 1) 10%Z) [2; 0; 1]
    [9; 1; 2; 3; 0; 0; 0; 9]%Z (replicate 3 ()) (replicate 3 None)
  = (λ r : list Z * list Z, (r.1, fmap (M:=list) Some r.2)) <$>
      each_worker (small_scan_seed Z.add (Z.of_nat 1) 10%Z) 0
        [9; 1; 2; 3; 0; 0; 0; 9]%Z (replicate 3 ()) ∧
  each_worker_in (small_scan_round Z.add 1 (Z.of_nat 1) (Z.of_nat 4)) [2; 0; 1]
    [9; 1; 2; 3; 0; 0; 0; 9]%Z [1; 2; 3]%Z (replicate 3 None)
  = (λ r : list Z * list Z, (r.1, fmap (M:=list) Some r.2)) <$>
      each_worker (small_scan_round Z.add 1 (Z.of_nat 1) (Z.of_nat 4)) 0
        [9; 1; 2; 3; 0; 0; 0; 9]%Z [1; 2; 3]%Z ∧
  each_worker_in (small_scan_shift (Z.of_nat 1) 10%Z) [2; 0; 1]
    [9; 1; 2; 3; 0; 0; 0; 9]%Z [1; 2; 3]%Z (replicate 3 None)
  = (λ r : list Z * list Z, (r.1, fmap (M:=list) Some r.2)) <$>
      each_worker (small_scan_shift (Z.of_nat 1) 10%Z) 0
        [9; 1; 2; 3; 0; 0; 0; 9]%Z [1; 2; 3]%Z ∧
  each_worker_in (small_scan_writeback (Z.of_nat 1)) [2; 0; 1]
    [9; 1; 2; 3; 0; 0; 0; 9]%Z [1; 2; 3]%Z (replicate 3 None)
  = (λ r : list Z * list (), (r.1, fmap (M:=list) Some r.2)) <$>
      each_worker (small_scan_writeback (Z.of_nat 1)) 0
        [9; 1; 2; 3; 0; 0; 0; 9]%Z [1; 2; 3]%Z.
Proof.
  apply (small_scan_phases_are_race_free Z.add 3 1 1 4 10%Z 1%Z
           [9; 1; 2; 3; 0; 0; 0; 9]%Z [1; 2; 3]%Z [2; 0; 1]).
  - simpl. lia.
  - reflexivity.
  - lia.
  - left. lia.
  - simpl. apply (Permutation_cons_append [0; 1] 2).
Defined.

Lemma tile_phases_are_race_free_witness :
  each_worker_in (accumulate bytes_under_int_plus 2 5) [2; 0; 1]
    {| sums := replicate 6 77%Z; stage := inl <$> [200; 100; 50; 1; 7; 88]%Z |}
    (replicate 3 ()) (replicate 3 None)
  = (λ r : scan_buffer Z Z * list (worker_locals Z),
       (r.1, fmap (M:=list) Some r.2)) <$>
      each_worker (accumulate bytes_under_int_plus 2 5) 0
        {| sums := replicate 6 77%Z; stage := inl <$> [200; 100; 50; 1; 7; 88]%Z |}
        (replicate 3 ()) ∧
  ∀ (b1 b : scan_buffer Z Z) (ls : list (worker_locals Z)),
    each_worker (accumulate bytes_under_int_plus 2 5) 0
      {| sums := replicate 6 77%Z; stage := inl <$> [200; 100; 50; 1; 7; 88]%Z |}
      (replicate 3 ()) = Some (b1, ls) →
    each_worker_in (local_scan bytes_under_int_plus 2 true 5) [2; 0; 1] b ls
      (replicate 3 None)
    = (λ r : scan_buffer Z Z * list (), (r.1, fmap (M:=list) Some r.2)) <$>
        each_worker (local_scan bytes_under_int_plus 2 true 5) 0 b ls.
Proof.
  apply (tile_phases_are_race_free bytes_under_int_plus 3 2 true 5
           {| sums := replicate 6 77%Z;
              stage := inl <$> [200; 100; 50; 1; 7; 88]%Z |}
           [2; 0; 1]).
  - lia.
  - simpl. lia.
  - simpl. apply (Permutation_cons_append [0; 1] 2).
Defined.

Lemma no_grain_passes_do_nothing_witness :
  ∃ st,
    tile_passes bytes_under_int_plus 2 0 50 true [1; 2; 3]%Z
      (Z.of_nat (length [1; 2; 3]%Z))
      {| first := 0; result := 1; carry_in := 10%Z;
         buffer := {| sums := replicate 4 77%Z; stage := [] |};
         dest := replicate 4 0%Z |}
    = Some st ∧
    first st = 0%Z ∧ result st = 1%Z ∧ dest st = replicate 4 0%Z ∧
    stage (buffer st) = stage {| sums := replicate 4 77%Z; stage := [] |}.
Proof.
  apply (no_grain_passes_do_nothing bytes_under_int_plus 2 true [1; 2; 3]%Z
           (replicate 4 0%Z) 1%Z 10%Z {| sums := replicate 4 77%Z; stage := [] |} 50).
  - lia.
  - simpl. lia.
  - simpl. lia.
  - discriminate.
Defined.

(** Two scratch buffers that differ everywhere, on two architectures, for
    [unsigned char] elements under [thrust::plus<int>]. *)
Lemma scratch_contents_do_not_matter_witness :
  inclusive_scan bytes_under_int_plus 2 2 100
    {| is_shared := true;
       block := {| sums := replicate 4 77%Z; stage := replicate 4 (inr 88%Z) |} |}
    [200; 100; 50; 1; 7]%Z (replicate 6 0%Z) (Z.of_nat 1) 100%Z
  = inclusive_scan bytes_under_int_plus 2 2 300
      {| is_shared := false;
         block := {| sums := [5; 6; 7; 8; 9]%Z; stage := inl <$> [1; 2; 3; 4]%Z |} |}
      [200; 100; 50; 1; 7]%Z (replicate 6 0%Z) (Z.of_nat 1) 100%Z ∧
  exclusive_scan bytes_under_int_plus 2 2 100
    {| is_shared := true;
       block := {| sums := replicate 4 77%Z; stage := replicate 4 (inr 88%Z) |} |}
    [200; 100; 50; 1; 7]%Z (replicate 6 0%Z) (Z.of_nat 1) 100%Z
  = exclusive_scan bytes_under_int_plus 2 2 300
      {| is_shared := false;
         block := {| sums := [5; 6; 7; 8; 9]%Z; stage := inl <$> [1; 2; 3; 4]%Z |} |}
      [200; 100; 50; 1; 7]%Z (replicate 6 0%Z) (Z.of_nat 1) 100%Z.
Proof.
  apply (scratch_contents_do_not_matter bytes_under_int_plus
           (Assoc0 := integer_sum_assoc) 2 2 100 300
           {| is_shared := true;
              block := {| sums := replicate 4 77%Z;
                          stage := replicate 4 (inr 88%Z) |} |}
           {| is_shared := false;
              block := {| sums := [5; 6; 7; 8; 9]%Z;
                          stage := inl <$> [1; 2; 3; 4]%Z |} |}
           [200; 100; 50; 1; 7]%Z (replicate 6 0%Z) 1 100%Z).
  - unfold representable. simpl. lia.
  - unfold capacity. simpl. lia.
  - unfold capacity. simpl. lia.
  - simpl. lia.
Defined.
